(** * The environment generator [man/90-rearrange-path.py]

    A shallow embedding of the generator and the properties of its
    specification.  Python text is a list of characters; the characters are
    the code points below 256.  A [dict] is a [gmap], a list indexed and
    updated in place is a list with stdpp's lookup and insert, an uncaught
    exception is [None].  In the string literals below a backslash stands
    for itself. *)

From Stdlib Require Import Ascii String.
From stdpp Require Import gmap strings list sorting.

Abbreviation str := (list ascii).

(** String literals stand for the character lists they spell. *)
Coercion list_ascii_of_string : string >-> list.

(** ** Python's [str] methods *)

Module Str.

(** [s.split(c)] for a one-character separator: never empty. *)
Fixpoint split (c : ascii) (s : str) : list str :=
  match s with
  | [] => [[]]
  | x :: s' =>
      if Ascii.eqb x c then [] :: split c s'
      else match split c s' with
           | w :: ws => (x :: w) :: ws
           | [] => [[x]]
           end
  end.

(** [sep.join(l)] *)
Fixpoint join (sep : str) (l : list str) : str :=
  match l with
  | [] => []
  | [x] => x
  | x :: l' => x ++ sep ++ join sep l'
  end.

(** [s.partition(c)]: text before the first [c], the separator found (or
    nothing), text after it. *)
Fixpoint partition (c : ascii) (s : str) : str * str * str :=
  match s with
  | [] => ([], [], [])
  | x :: s' =>
      if Ascii.eqb x c then ([], [c], s')
      else let '(a, op, b) := partition c s' in (x :: a, op, b)
  end.

(** [c.isspace()] on the code points below 256. *)
Definition isspace (c : ascii) : bool :=
  let n := nat_of_ascii c in
  (9 <=? n) && (n <=? 13) || (28 <=? n) && (n <=? 32)
  || (n =? 133) || (n =? 160).

(** [s.rstrip()] *)
Fixpoint rstrip (s : str) : str :=
  match s with
  | [] => []
  | c :: s' =>
      match rstrip s' with
      | [] => if isspace c then [] else [c]
      | r => c :: r
      end
  end.

Definition startswith (s pre : str) : bool :=
  bool_decide (take (length pre) s = pre).

Definition endswith (s suf : str) : bool :=
  bool_decide (drop (length s - length suf) s = suf)
  && (length suf <=? length s).

(** [s[:-1]] *)
Definition chop (s : str) : str := take (length s - 1) s.

(** [l.index(x)]: the first position of [x]; [None] stands for the
    [ValueError]. *)
Definition index {A} `{EqDecision A} (x : A) (l : list A) : option nat :=
  fst <$> list_find (λ y, y = x) l.

(** [x in l] *)
Definition contains {A} `{EqDecision A} (x : A) (l : list A) : bool :=
  bool_decide (x ∈ l).

Definition LF : ascii := "010"%char.
Definition CR : ascii := "013"%char.

(** The newline translation of a file opened in text mode: a carriage
    return, alone or before a line feed, reads as one line feed. *)
Fixpoint universal_newlines (s : str) : str :=
  match s with
  | [] => []
  | c :: s' =>
      if Ascii.eqb c CR then
        match s' with
        | c' :: _ =>
            if Ascii.eqb c' LF then universal_newlines s'
            else LF :: universal_newlines s'
        | [] => [LF]
        end
      else c :: universal_newlines s'
  end.

(** The lines of a text, each with its line feed (the last one may have
    none), as iterating over a file yields them. *)
Fixpoint lines (s : str) : list str :=
  match s with
  | [] => []
  | c :: s' =>
      if Ascii.eqb c LF then [c] :: lines s'
      else match lines s' with
           | [] => [[c]]
           | l :: ls => (c :: l) :: ls
           end
  end.

(** Comparison of strings, code point by code point. *)
Fixpoint compare (a b : str) : comparison :=
  match a, b with
  | [], [] => Eq
  | [], _ :: _ => Lt
  | _ :: _, [] => Gt
  | x :: a', y :: b' =>
      match Nat.compare (nat_of_ascii x) (nat_of_ascii y) with
      | Eq => compare a' b'
      | c => c
      end
  end.

End Str.

(** ** Python's [re]: the constructs the generator's pattern uses *)

Module Re.

Inductive regex :=
| Lit (c : ascii)                        (* one literal character *)
| Repeat (min : nat) (p : ascii → bool)  (* greedy run of a class *)
| Seq (r1 r2 : regex)
| Alt (r1 r2 : regex)
| Group (n : nat) (r : regex)            (* capturing group number n *)
| NotAfter (c : ascii).                  (* negative lookbehind of c *)

(** The text of the groups that took part in a match. *)
Abbreviation groups := (gmap nat str).

Section Matcher.
Context {A : Type}.

(** A greedy run of at least [min] characters of the class, giving
    characters back one at a time when the rest does not match. *)
Fixpoint repeat_class (p : ascii → bool) (min : nat)
    (prev : option ascii) (s : str)
    (k : option ascii → str → option A) : option A :=
  let stop := match min with 0 => k prev s | S _ => None end in
  match s with
  | c :: s' =>
      if p c then
        match repeat_class p (pred min) (Some c) s' k with
        | Some res => Some res
        | None => stop
        end
      else stop
  | [] => stop
  end.

(** Backtracking match of [r] at the front of [s]; [prev] is the
    character before this position, [k] matches what follows. *)
Fixpoint exec (r : regex) (prev : option ascii) (s : str) (g : groups)
    (k : option ascii → str → groups → option A) : option A :=
  match r with
  | Lit c =>
      match s with
      | x :: s' => if Ascii.eqb x c then k (Some x) s' g else None
      | [] => None
      end
  | Repeat min p => repeat_class p min prev s (λ prev' s', k prev' s' g)
  | Seq r1 r2 =>
      exec r1 prev s g (λ prev' s' g', exec r2 prev' s' g' k)
  | Alt r1 r2 =>
      match exec r1 prev s g k with
      | Some res => Some res
      | None => exec r2 prev s g k
      end
  | Group n r1 =>
      exec r1 prev s g
        (λ prev' s' g',
           k prev' s' (<[n := take (length s - length s') s]> g'))
  | NotAfter c =>
      if bool_decide (prev = Some c) then None else k prev s g
  end.
End Matcher.

(** A match of [r] starting here: its groups and its length. *)
Definition match_at (r : regex) (prev : option ascii) (s : str)
  : option (groups * nat) :=
  exec r prev s ∅ (λ _ s' g, Some (g, length s - length s')).

(** [re.sub(r, repl, s)] from a position on: [prev] is the character
    before it and [skip] counts the characters of the last match that are
    still ahead.  An empty match is replaced and the next character
    copied. *)
Fixpoint sub_at (r : regex) (repl : groups → str)
    (prev : option ascii) (skip : nat) (s : str) : str :=
  match skip with
  | S n =>
      match s with
      | [] => []
      | c :: s' => sub_at r repl (Some c) n s'
      end
  | 0 =>
      match match_at r prev s with
      | Some (g, len) =>
          repl g ++
          match s with
          | [] => []
          | c :: s' =>
              match len with
              | 0 => c :: sub_at r repl (Some c) 0 s'
              | S n => sub_at r repl (Some c) n s'
              end
          end
      | None =>
          match s with
          | [] => []
          | c :: s' => c :: sub_at r repl (Some c) 0 s'
          end
      end
  end.

Definition sub (r : regex) (repl : groups → str) (s : str) : str :=
  sub_at r repl None 0 s.

(** The character before the position behind [run], where [prev] is the
    character before [run]. *)
Definition prev_after (prev : option ascii) (run : str) : option ascii :=
  match last run with
  | Some c => Some c
  | None => prev
  end.

(** [\w] on the code points below 256: letters, digits and other
    numerals, and the underscore. *)
Definition isword (c : ascii) : bool :=
  let n := nat_of_ascii c in
  (48 <=? n) && (n <=? 57) || (65 <=? n) && (n <=? 90)
  || (97 <=? n) && (n <=? 122) || (n =? 95)
  || (n =? 170) || (n =? 178) || (n =? 179) || (n =? 181)
  || (n =? 185) || (n =? 186) || (188 <=? n) && (n <=? 190)
  || (192 <=? n) && (n <=? 214) || (216 <=? n) && (n <=? 246)
  || (248 <=? n).

End Re.

(** ** [pathlib.PurePosixPath] *)

Module Pathlib.

Definition sep : str := "/".

(** A parsed path: the root (nothing, one slash or two) and the
    components after it. *)
Record PurePath := { root : str; tail : list str }.

#[global] Instance PurePath_eq_dec : EqDecision PurePath.
Proof. solve_decision. Defined.

(** [posixpath.splitroot] without the drive, which is always empty. *)
Definition splitroot (p : str) : str * str :=
  if bool_decide (take 1 p ≠ sep) then ([], p)
  else if bool_decide (take 1 (drop 1 p) ≠ sep)
          || bool_decide (take 1 (drop 2 p) = sep)
       then (sep, drop 1 p)
       else (take 2 p, drop 2 p).

(** [PurePath._parse_path] *)
Definition parse_path (path : str) : PurePath :=
  match path with
  | [] => {| root := []; tail := [] |}
  | _ =>
      let '(rt, rel) := splitroot path in
      {| root := rt;
         tail := filter (λ x, x ≠ [] ∧ x ≠ ("." : str))
                   (Str.split "/" rel) |}
  end.

(** [posixpath.join] of a first segment and the others *)
Definition posix_join (a : str) (p : list str) : str :=
  fold_left
    (λ path b,
       if Str.startswith b sep then b
       else if bool_decide (path = []) || Str.endswith path sep
            then path ++ b
            else path ++ sep ++ b)
    p a.

(** [pathlib.Path] applied to a sequence of segments *)
Definition Path (args : list str) : PurePath :=
  match args with
  | [] => parse_path []
  | [a] => parse_path a
  | a :: p => parse_path (posix_join a p)
  end.

(** [p.parts] *)
Definition parts (p : PurePath) : list str :=
  match root p with
  | [] => tail p
  | rt => rt :: tail p
  end.

(** [p.as_posix()], which is [str(p)] on a POSIX path. *)
Definition as_posix (p : PurePath) : str :=
  match root p ++ Str.join sep (tail p) with
  | [] => "."
  | s => s
  end.

(** [p.name] *)
Definition name (p : PurePath) : str := default [] (last (tail p)).

(** A component of a parsed path is not empty, is not a dot and holds no
    slash. *)
Definition wf_comp (x : str) : Prop :=
  x ≠ [] ∧ x ≠ ("." : str) ∧ "/"%char ∉ x.

(** What [parse_path] produces: one of the three roots and well-formed
    components. *)
Definition wf_path (p : PurePath) : Prop :=
  (root p = [] ∨ root p = sep ∨ root p = ("//" : str))
  ∧ Forall wf_comp (tail p).

End Pathlib.

(** ** The configuration merger *)

(** The environment: a [dict] from names to values. *)
Abbreviation environ := (gmap str str).

(** What the generator sees of the file system: [glob.glob] and the text
    of a file, [None] when it cannot be opened. *)
Record filesystem := {
  fs_glob : str → list str;
  fs_open : str → option str
}.

(** A file system of flat directories, for the examples: each directory
    with the names and the texts of its files.  The glob of a directory
    gives the names that end in [.conf] and do not begin with a dot. *)
Definition flat_glob (tree : list (str * list (str * str))) (pattern : str)
  : list str :=
  tree ≫= λ '(dir, files),
    if decide (pattern = dir ++ "/*.conf") then
      (λ f : str * str, dir ++ "/" ++ f.1)
        <$> filter (λ f : str * str,
                      Str.endswith f.1 ".conf" = true
                      ∧ Str.startswith f.1 "." = false) files
    else [].

Definition flat_open (tree : list (str * list (str * str))) (path : str)
  : option str :=
  head (tree ≫= λ '(dir, files),
          files ≫= λ '(name, text),
            if decide (path = dir ++ "/" ++ name) then [text] else []).

Definition flat_fs (tree : list (str * list (str * str))) : filesystem :=
  {| fs_glob := flat_glob tree; fs_open := flat_open tree |}.

Section Merger.
Import Str Re.

(** The pattern of [handle_line]: a dollar not behind a backslash, then a
    run of word characters or a name in braces. *)
Definition pattern : regex :=
  Seq (NotAfter "\")
    (Seq (Lit "$")
       (Group 1
          (Alt (Repeat 1 isword)
             (Seq (Lit "{")
                (Seq (Group 2 (Repeat 0 (λ c, negb (Ascii.eqb c "}"))))
                   (Lit "}")))))).

(** [env.get(name, '')], where [name] may be [None]. *)
Definition env_get (env : environ) (name : option str) : str :=
  match name with
  | Some n => default [] (env !! n)
  | None => []
  end.

(** [a or b] on optional strings. *)
Definition py_or (a b : option str) : option str :=
  match a with
  | Some (_ :: _) => a
  | _ => b
  end.

Definition replace_var (env : environ) (m : groups) : str :=
  let name := py_or (m !! 2) (m !! 1) in
  env_get env name.

Definition handle_line (env : environ) (line : str) : environ :=
  let '(var, op, val) := partition "=" line in
  match op with
  | [] => env
  | _ =>
      let val := sub pattern (replace_var env) val in
      <[var := val]> env
  end.

(** An environment in whose values the character [c] does not occur. *)
Definition env_without (c : ascii) (env : environ) : Prop :=
  map_Forall (λ _ v : str, c ∉ v) env.

(** The substitution of [handle_line] from a position on, behind the
    character [prev]. *)
Definition substitute_at (env : environ) (prev : option ascii) (s : str)
  : str :=
  sub_at pattern (replace_var env) prev 0 s.

(** The body of the loop over the lines of a file; the state is the
    environment and [fullline]. *)
Definition read_line (st : environ * str) (line : str) : environ * str :=
  let '(env, fullline) := st in
  if startswith line "#" then (env, fullline)
  else
    let line := rstrip line in
    if endswith line "\" then (env, fullline ++ chop line)
    else
      let fullline := fullline ++ line in
      (handle_line env (rstrip fullline), []).

(** A line that is continued by the next one: not a comment and, without
    its trailing whitespace, ending in a backslash. *)
Definition continued (line : str) : Prop :=
  startswith line "#" = false ∧ endswith (rstrip line) "\" = true.

(** What a continued line adds to [fullline]. *)
Definition body (line : str) : str := chop (rstrip line).

(** [update_env_from_file] on the lines read from the file. *)
Definition update_env_from_lines (env : environ) (lines : list str)
  : environ :=
  let '(env, fullline) := fold_left read_line lines (env, []) in
  handle_line env (rstrip fullline).

Definition update_env_from_file (fs : filesystem) (env : environ)
    (file : str) : option environ :=
  text ← fs_open fs file;
  Some (update_env_from_lines env (lines (universal_newlines text))).

(** Order of the pairs of [files.items()]: by name, then by path. *)
Definition item_le (a b : str * str) : Prop :=
  match compare a.1 b.1 with
  | Lt => True
  | Gt => False
  | Eq => compare a.2 b.2 ≠ Gt
  end.

#[global] Instance item_le_dec : RelDecision item_le.
Proof.
  intros a b. unfold item_le. destruct (compare a.1 b.1); apply _.
Defined.

(** The paths found by the globs, directory after directory. *)
Definition globbed (fs : filesystem) (dirs : list str) : list str :=
  dirs ≫= (λ dir, fs_glob fs (dir ++ "/*.conf")).

(** The key of a path in the dictionary [files]: its last component. *)
Definition conf_name (p : str) : str := Pathlib.name (Pathlib.Path [p]).

(** The dictionary [files]: a later path replaces an earlier one of the
    same name. *)
Definition conf_files (fs : filesystem) (dirs : list str) : gmap str str :=
  fold_left (λ files p, <[conf_name p := p]> files) (globbed fs dirs) ∅.

(** The list [paths]: the files to read, in the order of their names. *)
Definition conf_paths (fs : filesystem) (dirs : list str) : list str :=
  (merge_sort item_le (map_to_list (conf_files fs dirs))).*2.

(** The loop over [paths]; an unreadable file ends the run. *)
Fixpoint update_env_from_files (fs : filesystem) (env : environ)
    (paths : list str) : option environ :=
  match paths with
  | [] => Some env
  | path :: paths' =>
      env' ← update_env_from_file fs env path;
      update_env_from_files fs env' paths'
  end.

Definition current_env (fs : filesystem) (dirs : list str)
  : option environ :=
  update_env_from_files fs ∅ (conf_paths fs dirs).

End Merger.

(** ** The path rearranger *)

Section Rearrange.
Import Pathlib.

(** The body of the loop of [rearrange_bin_sbin] at index [i]. *)
Definition rearrange_step (items : list PurePath) (i : nat)
  : list PurePath :=
  match items !! i with
  | None => items
  | Some it =>
      if Str.contains ("sbin" : str) (parts it) then
        match Str.index ("sbin" : str) (parts it) with
        | None => items
        | Some ind =>
            let bin :=
              Path (take ind (parts it) ++ [("bin" : str)]
                      ++ drop (ind + 1) (parts it)) in
            if Str.contains bin (drop (i + 1) items) then
              match Str.index bin (drop (i + 1) items) with
              | None => items
              | Some k =>
                  let j := i + 1 + k in
                  match items !! j with
                  | None => items
                  | Some itj => <[j := it]> (<[i := itj]> items)
                  end
              end
            else items
        end
      else items
  end.

(** The items after the iterations [0 .. n-1] of the loop. *)
Definition rearrange_loop (n : nat) (items : list PurePath)
  : list PurePath :=
  fold_left rearrange_step (seq 0 n) items.

(** The segments of a path string, parsed. *)
Definition path_items (path : str) : list PurePath :=
  (λ p, Path [p]) <$> Str.split ":" path.

Definition rearrange_bin_sbin (path : str) : str :=
  let items := path_items path in
  let items := rearrange_loop (length items) items in
  Str.join ":" (as_posix <$> items).

(** The sibling of a segment in the words of the specification: the first
    component [sbin] replaced by [bin], everything else as it is. *)
Fixpoint replace_first (old new : str) (l : list str) : list str :=
  match l with
  | [] => []
  | x :: l' =>
      if decide (x = old) then new :: l' else x :: replace_first old new l'
  end.

Definition sibling (p : PurePath) : PurePath :=
  {| root := root p; tail := replace_first "sbin" "bin" (tail p) |}.

(** A segment with at most one component [sbin]: its sibling has none. *)
Definition single_sbin (p : PurePath) : Prop :=
  ("sbin" : str) ∉ parts (sibling p).

(** A segment in which the character [c] does not occur; every segment of
    a split path string is without the colon. *)
Definition without (c : ascii) (p : PurePath) : Prop :=
  (c ∉ root p) ∧ Forall (λ x, c ∉ x) (tail p).

(** The state the docstring asks for, up to the index [n]: no segment
    before [n] that holds [sbin] has its sibling behind it. *)
Definition settled (n : nat) (items : list PurePath) : Prop :=
  ∀ i it, i < n → items !! i = Some it → ("sbin" : str) ∈ parts it →
          sibling it ∉ drop (i + 1) items.

End Rearrange.

(** ** The orchestrator *)

Section Orchestrator.

(** What a run does: it ends in an uncaught exception ([None]), or it
    returns, having written nothing or one file (its name and text). *)
Definition rearrange_path (fs : filesystem) (dirs : list str)
  : option (option (str * str)) :=
  env ← current_env fs dirs;
  match env !! ("PATH" : str) with
  | None | Some [] => Some None
  | Some path =>
      let new := rearrange_bin_sbin path in
      if decide (new = path) then Some None
      else
        dir ← last dirs;
        Some (Some (dir ++ "/90-rearrange-path.conf",
                    "PATH=" ++ new ++ [Str.LF]))
  end.

End Orchestrator.

(** * Properties *)

(** ** Splitting and joining *)

Section StrFacts.
Import Str.

Lemma split_no_sep c (x : str) : c ∉ x → split c x = [x].
Proof.
  induction x as [|a x IH]; intros Hc; [done|].
  apply not_elem_of_cons in Hc as [Hne Hx]. simpl.
  destruct (Ascii.eqb_spec a c) as [->|_]; [done|]. by rewrite IH.
Qed.

Lemma split_app_sep c (x rest : str) :
  c ∉ x → split c (x ++ c :: rest) = x :: split c rest.
Proof.
  induction x as [|a x IH]; intros Hc; simpl.
  - by rewrite Ascii.eqb_refl.
  - apply not_elem_of_cons in Hc as [Hne Hx].
    destruct (Ascii.eqb_spec a c) as [->|_]; [done|]. by rewrite IH.
Qed.

Lemma split_nonempty c (s : str) : split c s ≠ [].
Proof.
  destruct s as [|a s]; [done|]. simpl.
  destruct (Ascii.eqb a c); [done|]. by destruct (split c s).
Qed.

Lemma split_no_sep_inside c (s : str) : Forall (λ x, c ∉ x) (split c s).
Proof.
  induction s as [|a s IH]; simpl.
  - repeat constructor. by intros ?%elem_of_nil.
  - destruct (Ascii.eqb_spec a c) as [->|Hne].
    + constructor; [by intros ?%elem_of_nil|done].
    + destruct (split c s) as [|w ws]; inversion IH; subst.
      * repeat constructor. rewrite list_elem_of_singleton. congruence.
      * constructor; [|done]. rewrite elem_of_cons. intros [?|?]; congruence.
Qed.

Lemma join_cons sep (x : str) (l : list str) :
  l ≠ [] → join sep (x :: l) = x ++ sep ++ join sep l.
Proof. by destruct l. Qed.

(** Joining with a separator is the first item followed by the others,
    each behind a separator. *)
Lemma join_concat sep (x : str) (l : list str) :
  join sep (x :: l) = x ++ concat ((λ y, sep ++ y) <$> l).
Proof.
  revert x. induction l as [|y l IH]; intros x.
  - simpl. by rewrite app_nil_r.
  - rewrite join_cons by done. rewrite IH. simpl. by rewrite <- app_assoc.
Qed.

Lemma split_join c (l : list str) :
  l ≠ [] → Forall (λ x, c ∉ x) l → split c (join [c] l) = l.
Proof.
  induction l as [|x l IH]; [done|]. intros _ Hall.
  inversion Hall as [|? ? Hx Hl]; subst.
  destruct l as [|y l].
  - simpl. by apply split_no_sep.
  - rewrite join_cons by done.
    change (x ++ [c] ++ join [c] (y :: l))
      with (x ++ c :: join [c] (y :: l)).
    rewrite split_app_sep by done. f_equal. by apply IH.
Qed.

Lemma index_Some {A} `{EqDecision A} (x : A) l i :
  index x l = Some i ↔ l !! i = Some x ∧ ∀ j, j < i → l !! j ≠ Some x.
Proof.
  unfold index. split.
  - intros Hi. apply fmap_Some in Hi as [[i' y] [Hf ->]].
    apply list_find_Some in Hf as (Hl & -> & Hmin). simpl. split; [done|].
    intros j Hj Hlj. by apply (Hmin j x).
  - intros [Hl Hmin]. apply fmap_Some. exists (i, x). split; [|done].
    apply list_find_Some. split_and!; [done..|].
    intros j y Hlj Hj ->. by apply (Hmin j).
Qed.

Lemma index_None {A} `{EqDecision A} (x : A) l : index x l = None ↔ x ∉ l.
Proof.
  unfold index. rewrite fmap_None, list_find_None, Forall_forall.
  split; [intros Hall Hin; by apply (Hall x)|by intros Hx y Hy ->].
Qed.

Lemma contains_true {A} `{EqDecision A} (x : A) l :
  contains x l = true ↔ x ∈ l.
Proof. unfold contains. by rewrite bool_decide_eq_true. Qed.

Lemma contains_false {A} `{EqDecision A} (x : A) l :
  contains x l = false ↔ x ∉ l.
Proof. unfold contains. by rewrite bool_decide_eq_false. Qed.

End StrFacts.

(** ** Parsed paths *)

Section PathFacts.
Import Str Pathlib.

Lemma endswith_last (s : str) c :
  endswith s [c] = true ↔ last s = Some c.
Proof.
  unfold endswith. rewrite andb_true_iff, bool_decide_eq_true.
  destruct s as [|x s _] using rev_ind.
  - simpl. split; [by intros [? _]|done].
  - rewrite last_snoc, length_app, Nat.leb_le.
    change (length [x]) with 1. change (length [c]) with 1.
    replace (length s + 1 - 1) with (length s) by lia.
    rewrite drop_app_length. split.
    + by intros [[= ->] _].
    + intros [= ->]. split; [done|lia].
Qed.

Lemma startswith_head (s : str) c :
  startswith s [c] = true ↔ head s = Some c.
Proof.
  unfold startswith. rewrite bool_decide_eq_true.
  destruct s as [|x s]; simpl; [done|]. rewrite take_0.
  split; congruence.
Qed.

Lemma wf_comp_head x : wf_comp x → ∃ c x', x = c :: x' ∧ c ≠ "/"%char.
Proof.
  intros (Hne & _ & Hs). destruct x as [|c x']; [done|].
  exists c, x'. split; [done|]. intros ->. apply Hs. by left.
Qed.

Lemma wf_comp_not_startswith x : wf_comp x → startswith x sep = false.
Proof.
  intros (c & x' & -> & Hc)%wf_comp_head.
  apply not_true_iff_false. rewrite (startswith_head _ "/"). simpl.
  congruence.
Qed.

Lemma wf_comp_not_endswith (s x : str) :
  wf_comp x → endswith (s ++ x) sep = false.
Proof.
  intros (Hne & _ & Hs). apply not_true_iff_false.
  rewrite (endswith_last _ "/"). intros Hl.
  destruct x as [|c x _] using rev_ind; [done|].
  rewrite app_assoc, last_snoc in Hl. injection Hl as ->.
  apply Hs. apply elem_of_app. right. by left.
Qed.

Lemma posix_join_cons (a b : str) (p : list str) :
  posix_join a (b :: p)
  = posix_join (if startswith b sep then b
                else if bool_decide (a = []) || endswith a sep
                     then a ++ b else a ++ sep ++ b) p.
Proof. reflexivity. Qed.

(** Joining well-formed components behind a path that does not end in a
    slash puts one slash before each of them. *)
Lemma posix_join_comps (path : str) (comps : list str) :
  path ≠ [] → endswith path sep = false → Forall wf_comp comps →
  posix_join path comps = path ++ concat ((λ y, sep ++ y) <$> comps).
Proof.
  unfold posix_join. revert path.
  induction comps as [|b comps IH]; intros path Hne Hend Hall.
  - simpl. by rewrite app_nil_r.
  - inversion Hall as [|? ? Hb Hcomps]; subst. cbn [fold_left fmap list_fmap concat].
    rewrite (wf_comp_not_startswith b) by done. rewrite Hend.
    rewrite bool_decide_eq_false_2 by done. cbn [orb].
    rewrite IH; [|by destruct path| |done].
    + by rewrite <- !app_assoc.
    + rewrite app_assoc. by apply wf_comp_not_endswith.
Qed.

Lemma filter_wf_comps (comps : list str) :
  Forall wf_comp comps →
  filter (λ x : str, x ≠ [] ∧ x ≠ ("." : str)) comps = comps.
Proof.
  induction 1 as [|x l (? & ? & ?) _ IH]; [done|].
  rewrite filter_cons_True by done. by rewrite IH.
Qed.

Lemma splitroot_cases c (s : str) :
  c ≠ "/"%char →
  splitroot (c :: s) = ([], c :: s)
  ∧ splitroot ("/"%char :: c :: s) = (sep, c :: s)
  ∧ splitroot ("/"%char :: "/"%char :: c :: s) = (("//" : str), c :: s).
Proof.
  intros Hc. assert ([c] ≠ sep) as Hc' by (unfold sep; simpl; congruence).
  unfold splitroot. cbn [take drop firstn skipn].
  rewrite (bool_decide_eq_true_2 ([c] ≠ sep)) by done.
  rewrite (bool_decide_eq_false_2 ([c] = sep)) by done.
  done.
Qed.

(** Parsing the text of a root followed by slash-joined components gives
    them back. *)
Lemma parse_path_join (rt : str) (comps : list str) :
  rt = [] ∨ rt = sep ∨ rt = ("//" : str) → Forall wf_comp comps →
  parse_path (rt ++ join sep comps) = {| root := rt; tail := comps |}.
Proof.
  intros Hrt Hall. destruct comps as [|b comps].
  { by destruct Hrt as [->|[->| ->]]. }
  assert (Forall (λ x, "/"%char ∉ x) (b :: comps)) as Hns.
  { eapply Forall_impl; [done|]. by intros ? (_ & _ & ?). }
  assert (∃ c s, join sep (b :: comps) = c :: s ∧ c ≠ "/"%char)
    as (c & s & Hj & Hc).
  { inversion Hall as [|? ? Hb _]; subst.
    apply wf_comp_head in Hb as (c & x' & -> & Hc).
    rewrite join_concat.
    by exists c, (x' ++ concat ((λ y, sep ++ y) <$> comps)). }
  pose proof (split_join "/" (b :: comps) ltac:(done) Hns) as Hsplit.
  change [("/")%char] with sep in Hsplit. rewrite Hj in *.
  destruct (splitroot_cases c s Hc) as (H0 & H1 & H2).
  unfold parse_path.
  destruct Hrt as [->|[->| ->]]; cbn [app sep list_ascii_of_string].
  - rewrite H0, Hsplit. by rewrite filter_wf_comps.
  - rewrite H1, Hsplit. by rewrite filter_wf_comps.
  - rewrite H2, Hsplit. by rewrite filter_wf_comps.
Qed.

Lemma splitroot_root (p : str) :
  (splitroot p).1 = [] ∨ (splitroot p).1 = sep
  ∨ (splitroot p).1 = ("//" : str).
Proof.
  unfold splitroot. case_bool_decide as H1; [by left|].
  destruct (_ || _) eqn:H2; [by right; left|]. right; right.
  apply orb_false_iff in H2 as [H2 _].
  apply bool_decide_eq_false in H2.
  apply dec_stable in H2.
  destruct p as [|a [|b p]]; [done..|].
  cbn [take drop firstn skipn fst] in *.
  by injection H1 as ->; injection H2 as ->.
Qed.

(** Every parsed path is well formed. *)
Lemma parse_path_wf (s : str) : wf_path (parse_path s).
Proof.
  unfold parse_path. destruct s as [|a s].
  { split; [by left|constructor]. }
  pose proof (splitroot_root (a :: s)) as Hrt.
  destruct (splitroot (a :: s)) as [rt rel]. split; [done|]. simpl.
  apply Forall_forall. intros x [(Hne & Hdot) Hx]%list_elem_of_filter.
  split_and!; [done..|].
  pose proof (split_no_sep_inside "/" rel) as Hall.
  rewrite Forall_forall in Hall. by apply Hall.
Qed.

(** Two parsed paths with the same parts are the same path, so comparing
    paths compares their parts. *)
Lemma parts_inj (p q : PurePath) :
  wf_path p → wf_path q → parts p = parts q → p = q.
Proof.
  destruct p as [rp tp], q as [rq tq]. intros [Hp Hcp] [Hq Hcq].
  unfold parts. simpl in *.
  assert (∀ (r : str) (t1 t2 : list str),
            r = sep ∨ r = ("//" : str) → Forall wf_comp t1 → t1 ≠ r :: t2)
    as Hmix.
  { intros r t1 t2 Hr Hall ->. inversion Hall as [|? ? (_ & _ & Hs) _].
    apply Hs. destruct Hr as [->| ->]; by left. }
  destruct Hp as [->|Hp], Hq as [->|Hq].
  - by intros ->.
  - intros Heq. exfalso. apply (Hmix rq tp tq); [done..|].
    by destruct Hq as [->| ->].
  - intros Heq. exfalso. apply (Hmix rp tq tp); [done..|].
    by destruct Hp as [->| ->].
  - destruct Hp as [->| ->], Hq as [->| ->]; by intros [= ->].
Qed.

(** The text of a well-formed path parses back to it. *)
Lemma Path_parts (p : PurePath) : wf_path p → Path (parts p) = p.
Proof.
  destruct p as [rt comps]. intros [Hrt Hall]. simpl in *.
  assert (∀ r : str, r = sep ∨ r = ("//" : str) →
            Path (r :: comps) = {| root := r; tail := comps |}) as Habs.
  { intros r Hr. destruct comps as [|b comps].
    - by destruct Hr as [->| ->].
    - inversion Hall as [|? ? Hb Hcomps]; subst. unfold Path.
      assert (posix_join r (b :: comps) = r ++ join sep (b :: comps))
        as ->.
      { rewrite posix_join_cons.
        rewrite (wf_comp_not_startswith b) by done.
        assert (bool_decide (r = []) || endswith r sep = true) as ->.
        { by destruct Hr as [->| ->]. }
        rewrite posix_join_comps; [|by destruct Hr as [->| ->]| |done].
        - rewrite join_concat. by rewrite <- app_assoc.
        - by apply wf_comp_not_endswith. }
      apply parse_path_join; [|done]. by right. }
  unfold parts. simpl.
  destruct Hrt as [->|Hrt].
  - destruct comps as [|a [|b comps]]; [done| |].
    + change (parse_path a = {| root := []; tail := [a] |}).
      by rewrite <- (parse_path_join [] [a]); [|left|].
    + unfold Path. inversion Hall as [|? ? Ha Hcomps]; subst.
      rewrite posix_join_comps; [|by destruct Ha| |done].
      * rewrite <- join_concat.
        by rewrite <- (parse_path_join [] (a :: b :: comps)); [|left|].
      * by apply (wf_comp_not_endswith []).
  - destruct Hrt as [->| ->]; apply Habs; [by left|by right].
Qed.

End PathFacts.

(** ** The rearranger, one iteration at a time *)

Section RearrangeFacts.
Import Str Pathlib.

Lemma take_index_replace (old new : str) (l : list str) ind :
  index old l = Some ind →
  take ind l ++ [new] ++ drop (ind + 1) l = replace_first old new l.
Proof.
  rewrite index_Some. revert ind.
  induction l as [|x l IH]; intros ind [Hl Hmin]; [done|].
  destruct ind as [|ind]; simpl in *.
  - injection Hl as ->. by rewrite decide_True.
  - rewrite decide_False.
    + f_equal. apply IH. split; [done|].
      intros j Hj. apply (Hmin (S j)). lia.
    + intros ->. by apply (Hmin 0); [lia|].
Qed.

Lemma parts_sibling (p : PurePath) :
  wf_path p →
  parts (sibling p) = replace_first "sbin" "bin" (parts p).
Proof.
  intros [Hrt _]. unfold parts, sibling. simpl.
  by destruct Hrt as [->|[->| ->]].
Qed.

Lemma wf_comp_bin : wf_comp ("bin" : str).
Proof. split_and!; [done..|]. by apply (bool_decide_unpack _). Qed.

Lemma sibling_wf (p : PurePath) : wf_path p → wf_path (sibling p).
Proof.
  intros [Hrt Hall]. split; [done|]. unfold sibling. cbn [tail].
  induction Hall as [|x l Hx Hl IH]; cbn [replace_first]; [done|].
  case_decide; constructor; [apply wf_comp_bin|done..].
Qed.

(** The path the code builds from the sliced parts is the sibling. *)
Lemma bin_is_sibling (it : PurePath) ind :
  wf_path it → index ("sbin" : str) (parts it) = Some ind →
  Path (take ind (parts it) ++ [("bin" : str)] ++ drop (ind + 1) (parts it))
  = sibling it.
Proof.
  intros Hwf Hind. rewrite (take_index_replace "sbin" "bin") by done.
  rewrite <- parts_sibling by done. apply Path_parts. by apply sibling_wf.
Qed.

Lemma rearrange_loop_S n items :
  rearrange_loop (S n) items = rearrange_step (rearrange_loop n items) n.
Proof.
  unfold rearrange_loop. by rewrite seq_S, fold_left_app.
Qed.

Lemma rearrange_step_skip items i it :
  items !! i = Some it → ("sbin" : str) ∉ parts it →
  rearrange_step items i = items.
Proof.
  intros Hi Hno. unfold rearrange_step. rewrite Hi.
  by rewrite (proj2 (contains_false _ _) Hno).
Qed.

(** What one iteration does on parsed segments. *)
Lemma rearrange_step_spec items i it :
  Forall wf_path items → items !! i = Some it →
  ("sbin" : str) ∈ parts it →
  (∃ j, i < j ∧ items !! j = Some (sibling it)
      ∧ (∀ k, i < k < j → items !! k ≠ Some (sibling it))
      ∧ rearrange_step items i = <[j := it]> (<[i := sibling it]> items))
  ∨ ((∀ k, i < k → items !! k ≠ Some (sibling it))
      ∧ rearrange_step items i = items).
Proof.
  intros Hall Hi Hin. unfold rearrange_step. rewrite Hi.
  rewrite (proj2 (contains_true _ _) Hin).
  assert (wf_path it) as Hwf.
  { rewrite Forall_forall in Hall. apply Hall.
    by eapply list_elem_of_lookup_2. }
  destruct (index ("sbin" : str) (parts it)) as [ind|] eqn:Hind;
    [|by apply index_None in Hind].
  cbv zeta. rewrite bin_is_sibling by done.
  destruct (contains (sibling it) (drop (i + 1) items)) eqn:Hc.
  - left. apply contains_true in Hc.
    destruct (index (sibling it) (drop (i + 1) items)) as [k|] eqn:Hk;
      [|by apply index_None in Hk].
    apply index_Some in Hk as [Hk Hmin]. rewrite lookup_drop in Hk.
    exists (i + 1 + k). rewrite Hk. split_and!; [lia|done| |done].
    intros k' [Hlo Hhi] Hk'. apply (Hmin (k' - (i + 1))); [lia|].
    rewrite lookup_drop. by replace (i + 1 + (k' - (i + 1))) with k' by lia.
  - right. apply contains_false in Hc. split; [|done].
    intros k Hlt Hk. apply Hc.
    apply (list_elem_of_lookup_2 _ (k - (i + 1))).
    rewrite lookup_drop. by replace (i + 1 + (k - (i + 1))) with k by lia.
Qed.

Lemma path_items_wf path : Forall wf_path (path_items path).
Proof.
  unfold path_items. apply Forall_fmap, Forall_forall.
  intros p _. apply parse_path_wf.
Qed.

Lemma rearrange_step_wf items i :
  Forall wf_path items → Forall wf_path (rearrange_step items i).
Proof.
  intros Hall. destruct (items !! i) as [it|] eqn:Hi;
    [|by unfold rearrange_step; rewrite Hi].
  assert (wf_path it) as Hwf.
  { rewrite Forall_forall in Hall. apply Hall.
    by eapply list_elem_of_lookup_2. }
  destruct (decide (("sbin" : str) ∈ parts it)) as [Hin|Hno];
    [|by rewrite (rearrange_step_skip _ _ it)].
  destruct (rearrange_step_spec items i it Hall Hi Hin)
    as [(j & _ & _ & _ & ->)|[_ ->]]; [|done].
  apply Forall_insert; [|done]. apply Forall_insert; [done|].
  by apply sibling_wf.
Qed.

Lemma rearrange_loop_wf n items :
  Forall wf_path items → Forall wf_path (rearrange_loop n items).
Proof.
  intros Hall. induction n as [|n IH]; [done|].
  rewrite rearrange_loop_S. by apply rearrange_step_wf.
Qed.

Lemma rearrange_step_length items i :
  length (rearrange_step items i) = length items.
Proof.
  unfold rearrange_step. repeat case_match; by rewrite ?length_insert.
Qed.

Lemma rearrange_loop_length n items :
  length (rearrange_loop n items) = length items.
Proof.
  induction n as [|n IH]; [done|].
  by rewrite rearrange_loop_S, rearrange_step_length.
Qed.

End RearrangeFacts.

(** ** Segments with one [sbin]: a second pass changes nothing *)

Section Idempotence.
Import Str Pathlib.

Lemma insert_Permutation_cons {A} (l : list A) j a b :
  l !! j = Some b → b :: <[j := a]> l ≡ₚ a :: l.
Proof.
  revert j. induction l as [|y l IH]; intros [|j] Hj; simplify_eq/=.
  - apply Permutation_swap.
  - rewrite Permutation_swap, (IH j Hj). apply Permutation_swap.
Qed.

(** Exchanging two items of a list permutes it. *)
Lemma swap_Permutation {A} (l : list A) i j a b :
  l !! i = Some a → l !! j = Some b → <[j := a]> (<[i := b]> l) ≡ₚ l.
Proof.
  revert i j. induction l as [|x l IH]; intros [|i] [|j] Hi Hj;
    simplify_eq/=; [done| | |].
  - by apply insert_Permutation_cons.
  - by apply insert_Permutation_cons.
  - by rewrite (IH i j).
Qed.

Lemma swap_drop_elem_of {A} (l : list A) k i j a b x :
  k ≤ i → k ≤ j → l !! i = Some a → l !! j = Some b →
  x ∈ drop k (<[j := a]> (<[i := b]> l)) ↔ x ∈ drop k l.
Proof.
  intros Hki Hkj Hi Hj. rewrite !drop_insert_ge by done.
  rewrite swap_Permutation; [done|rewrite lookup_drop..].
  - by replace (k + (i - k)) with i by lia.
  - by replace (k + (j - k)) with j by lia.
Qed.

(** An iteration keeps what holds of every segment and of the siblings. *)
Lemma rearrange_step_Forall (P : PurePath → Prop) items i :
  Forall wf_path items → Forall P items →
  Forall P (rearrange_step items i).
Proof.
  intros Hwf HP. destruct (items !! i) as [it|] eqn:Hi;
    [|by unfold rearrange_step; rewrite Hi].
  destruct (decide (("sbin" : str) ∈ parts it)) as [Hin|Hno];
    [|by rewrite (rearrange_step_skip _ _ it)].
  rewrite Forall_forall in HP.
  destruct (rearrange_step_spec items i it Hwf Hi Hin)
    as [(j & _ & Hj & _ & ->)|[_ ->]]; [|by apply Forall_forall].
  apply Forall_insert; [apply Forall_insert; [by apply Forall_forall|]|];
    apply HP; by eapply list_elem_of_lookup_2.
Qed.

Lemma rearrange_loop_Forall (P : PurePath → Prop) n items :
  Forall wf_path items → Forall P items →
  Forall P (rearrange_loop n items).
Proof.
  intros Hwf HP. induction n as [|n IH]; [done|].
  rewrite rearrange_loop_S.
  apply rearrange_step_Forall; [by apply rearrange_loop_wf|done].
Qed.

(** One more iteration settles one more index. *)
Lemma rearrange_step_settled n items :
  Forall wf_path items → Forall single_sbin items →
  settled n items → settled (S n) (rearrange_step items n).
Proof.
  intros Hwf Hsingle Hset.
  destruct (items !! n) as [itn|] eqn:Hn.
  2:{ assert (rearrange_step items n = items) as ->
        by (by unfold rearrange_step; rewrite Hn).
      intros i it Hi Hit. apply Hset; [|done].
      apply lookup_lt_Some in Hit. apply lookup_ge_None in Hn. lia. }
  destruct (decide (("sbin" : str) ∈ parts itn)) as [Hin|Hno].
  2:{ rewrite (rearrange_step_skip _ _ itn) by done.
      intros i it Hi Hit Hsbin.
      destruct (decide (i = n)) as [->|]; [congruence|].
      apply Hset; [lia|done..]. }
  destruct (rearrange_step_spec items n itn Hwf Hn Hin)
    as [(j & Hnj & Hj & _ & ->)|[Hnone ->]].
  - intros i it Hi Hit Hsbin.
    destruct (decide (i = n)) as [->|Hne].
    + rewrite list_lookup_insert_ne in Hit by lia.
      rewrite list_lookup_insert_eq in Hit by by eapply lookup_lt_Some.
      injection Hit as <-. exfalso.
      rewrite Forall_forall in Hsingle.
      by apply (Hsingle itn); [eapply list_elem_of_lookup_2|].
    + rewrite !list_lookup_insert_ne in Hit by lia.
      rewrite (swap_drop_elem_of items (i + 1) n j itn (sibling itn))
        by (done || lia).
      apply Hset; [lia|done..].
  - intros i it Hi Hit Hsbin.
    destruct (decide (i = n)) as [->|Hne].
    + assert (it = itn) as -> by congruence.
      intros (k & Hk)%list_elem_of_lookup_1. rewrite lookup_drop in Hk.
      apply (Hnone (n + 1 + k)); [lia|done].
    + apply Hset; [lia|done..].
Qed.

Lemma rearrange_loop_settled n items :
  Forall wf_path items → Forall single_sbin items →
  settled n (rearrange_loop n items).
Proof.
  intros Hwf Hsingle. induction n as [|n IH].
  - intros i it Hi. lia.
  - rewrite rearrange_loop_S. apply rearrange_step_settled; [| |done].
    + by apply rearrange_loop_wf.
    + by apply rearrange_loop_Forall.
Qed.

(** On settled items the loop finds nothing to swap. *)
Lemma rearrange_loop_fixed n items :
  Forall wf_path items → settled (length items) items →
  rearrange_loop n items = items.
Proof.
  intros Hwf Hset. induction n as [|n IH]; [done|].
  rewrite rearrange_loop_S, IH.
  destruct (items !! n) as [it|] eqn:Hn;
    [|by unfold rearrange_step; rewrite Hn].
  destruct (decide (("sbin" : str) ∈ parts it)) as [Hin|Hno];
    [|by rewrite (rearrange_step_skip _ _ it)].
  destruct (rearrange_step_spec items n it Hwf Hn Hin)
    as [(j & Hnj & Hj & _ & _)|[_ ->]]; [|done].
  exfalso. apply (Hset n it); [by eapply lookup_lt_Some|done..|].
  apply (list_elem_of_lookup_2 _ (j - (n + 1))). rewrite lookup_drop.
  by replace (n + 1 + (j - (n + 1))) with j by lia.
Qed.

Lemma split_chars c (s x : str) ch : x ∈ split c s → ch ∈ x → ch ∈ s.
Proof.
  revert x. induction s as [|a s IH]; intros x; simpl.
  - by intros ->%list_elem_of_singleton ?%elem_of_nil.
  - destruct (Ascii.eqb_spec a c) as [->|Hne].
    + intros [->|Hx]%elem_of_cons Hch; [by apply elem_of_nil in Hch|].
      right. by eapply IH.
    + destruct (split c s) as [|w ws] eqn:Hs.
      * intros ->%list_elem_of_singleton ->%list_elem_of_singleton. by left.
      * intros [->|Hx]%elem_of_cons Hch.
        -- apply elem_of_cons in Hch as [->|Hch]; [by left|].
           right. apply (IH w); [by left|done].
        -- right. apply (IH x); [by right|done].
Qed.

Lemma splitroot_rel (p : str) : ∃ n, (splitroot p).2 = drop n p.
Proof.
  unfold splitroot. case_bool_decide; [by exists 0|].
  destruct (_ || _); [by exists 1|by exists 2].
Qed.

Lemma parse_path_without c (s : str) :
  c ≠ "/"%char → c ∉ s → without c (parse_path s).
Proof.
  intros Hc Hs. unfold parse_path. destruct s as [|a s].
  { split; [by intros ?%elem_of_nil|constructor]. }
  pose proof (splitroot_root (a :: s)) as Hrt.
  assert (∀ ch, ch ∈ (splitroot (a :: s)).2 → ch ∈ a :: s) as Hrel.
  { intros ch. destruct (splitroot_rel (a :: s)) as [n ->].
    apply subseteq_drop. }
  destruct (splitroot (a :: s)) as [rt rel]. simpl in *. split; simpl.
  - intros Hin. destruct Hrt as [->|[->| ->]]; unfold sep in Hin;
      simpl in Hin;
      repeat (apply elem_of_cons in Hin as [?|Hin]; [done|]);
      by apply elem_of_nil in Hin.
  - apply Forall_forall. intros x [_ Hx]%list_elem_of_filter Hch.
    apply Hs, Hrel. by eapply split_chars.
Qed.

Lemma path_items_without c path :
  c ≠ "/"%char → c ∉ path → Forall (without c) (path_items path).
Proof.
  intros Hc Hpath. unfold path_items.
  apply Forall_fmap, Forall_forall. intros seg Hseg.
  apply parse_path_without; [done|]. intros Hin. apply Hpath.
  by eapply split_chars.
Qed.

Lemma path_items_no_colon path : Forall (without ":") (path_items path).
Proof.
  unfold path_items. apply Forall_fmap, Forall_forall. intros seg Hseg.
  apply parse_path_without; [done|].
  pose proof (split_no_sep_inside ":" path) as Hall.
  rewrite Forall_forall in Hall. by apply Hall.
Qed.

Lemma join_no_sep c (sp : str) (l : list str) :
  c ∉ sp → Forall (λ x, c ∉ x) l → c ∉ join sp l.
Proof.
  intros Hsp. induction 1 as [|x l Hx Hl IH]; [by intros ?%elem_of_nil|].
  destruct l as [|y l]; [done|]. rewrite join_cons by done.
  rewrite !elem_of_app. tauto.
Qed.

Lemma as_posix_without c p :
  c ≠ "/"%char → c ≠ "."%char → without c p → c ∉ as_posix p.
Proof.
  intros Hslash Hdot [Hrt Hall]. unfold as_posix.
  assert (c ∉ root p ++ join sep (tail p)) as Hno.
  { rewrite elem_of_app. intros [?|Hj]; [done|]. revert Hj.
    apply join_no_sep; [|done]. unfold sep. simpl.
    by intros [?|?%elem_of_nil]%elem_of_cons. }
  destruct (root p ++ join sep (tail p)); [|done].
  simpl. by intros [?|?%elem_of_nil]%elem_of_cons.
Qed.

(** The text of a parsed path parses back to it. *)
Lemma Path_as_posix p : wf_path p → Path [as_posix p] = p.
Proof.
  intros [Hrt Hall]. destruct p as [rt comps]. simpl in *.
  unfold as_posix, Path. simpl.
  destruct (rt ++ join sep comps) as [|c s] eqn:Heq.
  - apply app_eq_nil in Heq as [-> Hj]. destruct comps as [|x comps]; [done|].
    exfalso. inversion Hall as [|? ? (Hx & _) _]; subst.
    rewrite join_concat in Hj. by apply app_eq_nil in Hj as [-> _].
  - rewrite <- Heq. by apply parse_path_join.
Qed.

Lemma path_items_join (items : list PurePath) :
  items ≠ [] → Forall wf_path items → Forall (without ":") items →
  path_items (join ":" (as_posix <$> items)) = items.
Proof.
  intros Hne Hwf Hnc. unfold path_items.
  rewrite (split_join ":" (as_posix <$> items)).
  - rewrite <- list_fmap_compose. rewrite <- (list_fmap_id items) at 2.
    apply Forall_fmap_ext_1. eapply Forall_impl; [exact Hwf|].
    intros p Hp. by apply Path_as_posix.
  - by destruct items.
  - apply Forall_fmap. eapply Forall_impl; [exact Hnc|].
    intros p Hp. by apply as_posix_without.
Qed.

(** The result holds no character that is not in the path string, but for
    the slash, the dot and the colon. *)
Lemma rearrange_bin_sbin_without c (path : str) :
  c ≠ "/"%char → c ≠ "."%char → c ≠ ":"%char → c ∉ path →
  c ∉ rearrange_bin_sbin path.
Proof.
  intros Hslash Hdot Hcolon Hpath. unfold rearrange_bin_sbin.
  apply join_no_sep; [by intros [?|?%elem_of_nil]%elem_of_cons|].
  apply Forall_fmap.
  eapply Forall_impl;
    [apply (rearrange_loop_Forall (without c));
       [apply path_items_wf|by apply path_items_without]|].
  intros p Hp. by apply as_posix_without.
Qed.

(** When no segment holds the component [sbin] twice, rearranging the
    result again gives the same result. *)
Theorem rearrange_twice_single_sbin (path : str) :
  Forall single_sbin (path_items path) →
  rearrange_bin_sbin (rearrange_bin_sbin path) = rearrange_bin_sbin path.
Proof.
  intros Hsingle.
  assert (∀ q, rearrange_bin_sbin q
               = join ":" (as_posix <$> rearrange_loop
                                          (length (path_items q))
                                          (path_items q))) as Hdef by done.
  rewrite (Hdef path).
  set (items := path_items path) in *.
  set (final := rearrange_loop (length items) items).
  assert (Forall wf_path final) as Hwf
    by apply rearrange_loop_wf, path_items_wf.
  assert (length final = length items) as Hlen
    by apply rearrange_loop_length.
  assert (settled (length final) final) as Hset.
  { rewrite Hlen. apply rearrange_loop_settled; [apply path_items_wf|done]. }
  rewrite Hdef, path_items_join; [|..].
  - by rewrite rearrange_loop_fixed.
  - intros Hnil. rewrite Hnil in Hlen. unfold items, path_items in Hlen.
    rewrite length_fmap in Hlen.
    pose proof (split_nonempty ":" path). by destruct (split ":" path).
  - done.
  - apply rearrange_loop_Forall; [apply path_items_wf|].
    apply path_items_no_colon.
Qed.

End Idempotence.

(** ** The claims on the rearranger *)

Section RearrangeClaims.
Import Str Pathlib.

(** C1.  At every index [i] of the loop whose segment holds the component
    [sbin], the path built from the sliced parts is the sibling: the
    segment with its first [sbin] replaced by [bin] and nothing else
    changed; only the segments behind [i] are searched for it; when the
    first one equal to it is at [j], the iteration swaps the segments at
    [i] and [j], and otherwise it changes nothing.
    [/usr/sbin:/usr/bin:/foo/bar] becomes [/usr/bin:/usr/sbin:/foo/bar],
    and [/usr/bin:/usr/sbin] stays. *)
Theorem C1_rearrange_swaps_with_first_later_sibling
    (path : str) (i : nat) (it : PurePath) :
  rearrange_loop i (path_items path) !! i = Some it →
  ("sbin" : str) ∈ parts it →
  (∃ ind, index ("sbin" : str) (parts it) = Some ind
          ∧ Path (take ind (parts it) ++ [("bin" : str)]
                    ++ drop (ind + 1) (parts it))
            = sibling it)
  ∧ parts (sibling it) = replace_first "sbin" "bin" (parts it)
  ∧ ((∃ j, i < j
        ∧ rearrange_loop i (path_items path) !! j = Some (sibling it)
        ∧ (∀ k, i < k < j →
             rearrange_loop i (path_items path) !! k ≠ Some (sibling it))
        ∧ rearrange_loop (S i) (path_items path)
          = <[j := it]>
              (<[i := sibling it]> (rearrange_loop i (path_items path))))
     ∨ ((∀ k, i < k →
           rearrange_loop i (path_items path) !! k ≠ Some (sibling it))
        ∧ rearrange_loop (S i) (path_items path)
          = rearrange_loop i (path_items path)))
  ∧ rearrange_bin_sbin "/usr/sbin:/usr/bin:/foo/bar"
    = "/usr/bin:/usr/sbin:/foo/bar"
  ∧ rearrange_bin_sbin "/usr/bin:/usr/sbin" = "/usr/bin:/usr/sbin".
Proof.
  intros Hi Hin.
  pose proof (rearrange_loop_wf i _ (path_items_wf path)) as Hall.
  assert (wf_path it) as Hwf.
  { rewrite Forall_forall in Hall. apply Hall.
    by eapply list_elem_of_lookup_2. }
  split_and!; [|by apply parts_sibling| |by vm_compute..].
  - destruct (index ("sbin" : str) (parts it)) as [ind|] eqn:Hind;
      [|by apply index_None in Hind].
    exists ind. split; [done|]. by apply bin_is_sibling.
  - rewrite rearrange_loop_S. by apply rearrange_step_spec.
Qed.

Lemma C1_witness :
  let path : str := "/usr/sbin:/usr/bin:/foo/bar" in
  let it := Path [("/usr/sbin" : str)] in
  (rearrange_loop 0 (path_items path) !! 0 = Some it
   ∧ ("sbin" : str) ∈ parts it)
  ∧ (∃ ind, index ("sbin" : str) (parts it) = Some ind
            ∧ Path (take ind (parts it) ++ [("bin" : str)]
                      ++ drop (ind + 1) (parts it))
              = sibling it)
  ∧ parts (sibling it) = replace_first "sbin" "bin" (parts it)
  ∧ ((∃ j, 0 < j
        ∧ rearrange_loop 0 (path_items path) !! j = Some (sibling it)
        ∧ (∀ k, 0 < k < j →
             rearrange_loop 0 (path_items path) !! k ≠ Some (sibling it))
        ∧ rearrange_loop 1 (path_items path)
          = <[j := it]>
              (<[0 := sibling it]> (rearrange_loop 0 (path_items path))))
     ∨ ((∀ k, 0 < k →
           rearrange_loop 0 (path_items path) !! k ≠ Some (sibling it))
        ∧ rearrange_loop 1 (path_items path)
          = rearrange_loop 0 (path_items path)))
  ∧ rearrange_bin_sbin "/usr/sbin:/usr/bin:/foo/bar"
    = "/usr/bin:/usr/sbin:/foo/bar"
  ∧ rearrange_bin_sbin "/usr/bin:/usr/sbin" = "/usr/bin:/usr/sbin".
Proof.
  intros path it.
  assert (rearrange_loop 0 (path_items path) !! 0 = Some it) as H1
    by reflexivity.
  assert (("sbin" : str) ∈ parts it) as H2
    by (apply (bool_decide_unpack _); vm_compute; exact I).
  split; [by split|].
  exact (C1_rearrange_swaps_with_first_later_sibling path 0 it H1 H2).
Defined.

End RearrangeClaims.

(** ** The matcher on the pattern of [handle_line] *)

Section ReFacts.
Import Str Re.

Lemma prev_after_cons prev c run :
  prev_after (Some c) run = prev_after prev (c :: run).
Proof.
  unfold prev_after. rewrite last_cons. by destruct (last run).
Qed.

(** A greedy run takes every character of the class when what follows
    matches behind the longest run. *)
Lemma repeat_class_run {A} p min prev (run rest : str)
    (k : option ascii → str → option A) res :
  Forall (λ c, p c = true) run →
  (∀ c, head rest = Some c → p c = false) →
  min ≤ length run →
  k (prev_after prev run) rest = Some res →
  repeat_class p min prev (run ++ rest) k = Some res.
Proof.
  intros Hrun Hrest. revert min prev.
  induction Hrun as [|c run Hc _ IH]; intros min prev Hmin Hk.
  - simpl in Hmin. assert (min = 0) as -> by lia.
    destruct rest as [|c rest]; simpl; [done|].
    by rewrite (Hrest c).
  - cbn [app repeat_class]. rewrite Hc.
    rewrite (IH (pred min) (Some c)); [done|simpl in Hmin; lia|].
    by rewrite prev_after_cons with (prev := prev).
Qed.

Lemma repeat_class_no_start {A} p min prev c (s : str)
    (k : option ascii → str → option A) :
  p c = false → 0 < min → repeat_class p min prev (c :: s) k = None.
Proof. intros Hc Hmin. simpl. rewrite Hc. by destruct min; [lia|]. Qed.

Lemma take_length_app (run rest : str) :
  take (length (run ++ rest) - length rest) (run ++ rest) = run.
Proof.
  rewrite length_app. replace (length run + length rest - length rest)
    with (length run) by lia.
  apply take_app_length.
Qed.

(** Behind a backslash nothing matches. *)
Lemma match_at_escaped (s : str) : match_at pattern (Some "\"%char) s = None.
Proof. done. Qed.

(** Nothing matches at a character other than the dollar. *)
Lemma match_at_other prev c (s : str) :
  c ≠ "$"%char → match_at pattern prev (c :: s) = None.
Proof.
  intros Hc. unfold match_at, pattern. cbn [exec].
  case_bool_decide; [done|].
  by destruct (Ascii.eqb_spec c "$").
Qed.

Lemma match_at_end prev : match_at pattern prev [] = None.
Proof. unfold match_at, pattern. cbn [exec]. by case_bool_decide. Qed.

(** A dollar and a run of word characters match as a whole, with the run
    as group 1. *)
Lemma match_at_word prev (name rest : str) :
  prev ≠ Some "\"%char → name ≠ [] →
  Forall (λ c, isword c = true) name →
  (∀ c, head rest = Some c → isword c = false) →
  match_at pattern prev ("$"%char :: name ++ rest)
  = Some ({[1 := name]}, S (length name)).
Proof.
  intros Hprev Hne Hname Hrest. unfold match_at, pattern. cbn [exec].
  rewrite bool_decide_eq_false_2 by done. cbn [Ascii.eqb Bool.eqb].
  erewrite repeat_class_run;
    [|done|done|destruct name; [done|simpl; lia]|reflexivity].
  rewrite take_length_app. do 3 f_equal.
  cbn [length]. rewrite length_app. lia.
Qed.

(** A dollar and a name in braces match as a whole; the name is group 2
    and the name with its braces group 1. *)
Lemma match_at_braces prev (name rest : str) :
  prev ≠ Some "\"%char → "}"%char ∉ name →
  match_at pattern prev ("$"%char :: "{"%char :: name ++ "}"%char :: rest)
  = Some (<[1 := "{"%char :: name ++ ["}"%char]]> {[2 := name]},
          length name + 3).
Proof.
  intros Hprev Hname. unfold match_at, pattern. cbn [exec].
  rewrite bool_decide_eq_false_2 by done. cbn [Ascii.eqb Bool.eqb].
  rewrite repeat_class_no_start by (done || lia).
  erewrite repeat_class_run;
    [| | |simpl; lia|rewrite Ascii.eqb_refl; reflexivity].
  - rewrite take_length_app. do 2 f_equal.
    + f_equal.
      assert ("{"%char :: name ++ "}"%char :: rest
              = ("{"%char :: name ++ ["}"%char]) ++ rest) as ->.
      { simpl. by rewrite <- app_assoc. }
      apply take_length_app.
    + cbn [length]. rewrite !length_app. cbn [length]. lia.
  - apply Forall_forall. intros c Hc.
    destruct (Ascii.eqb_spec c "}") as [->|]; done.
  - intros c [= <-]. by rewrite Ascii.eqb_refl.
Qed.

End ReFacts.

(** ** Substitution and assignment *)

Section SubstituteFacts.
Import Str Re.

Lemma sub_at_skip r repl prev (tok rest : str) :
  sub_at r repl prev (length tok) (tok ++ rest)
  = sub_at r repl (prev_after prev tok) 0 rest.
Proof.
  revert prev. induction tok as [|c tok IH]; intros prev; [done|].
  cbn [length app sub_at]. rewrite IH.
  by rewrite prev_after_cons with (prev := prev).
Qed.

Lemma sub_at_match r repl prev c (tok rest : str) g :
  match_at r prev (c :: tok ++ rest) = Some (g, S (length tok)) →
  sub_at r repl prev 0 (c :: tok ++ rest)
  = repl g ++ sub_at r repl (prev_after (Some c) tok) 0 rest.
Proof. intros Hm. cbn [sub_at]. rewrite Hm. by rewrite sub_at_skip. Qed.

Lemma sub_at_no_match r repl prev c (s : str) :
  match_at r prev (c :: s) = None →
  sub_at r repl prev 0 (c :: s) = c :: sub_at r repl (Some c) 0 s.
Proof. intros Hm. cbn [sub_at]. by rewrite Hm. Qed.

Lemma replace_var_word env (name : str) :
  replace_var env {[1 := name]} = default [] (env !! name).
Proof. done. Qed.

Lemma replace_var_braces env (name : str) :
  name ≠ [] →
  replace_var env (<[1 := "{"%char :: name ++ ["}"%char]]> {[2 := name]})
  = default [] (env !! name).
Proof. intros Hne. unfold replace_var. by destruct name. Qed.

Lemma substitute_at_word env prev (name rest : str) :
  prev ≠ Some "\"%char → name ≠ [] →
  Forall (λ c, isword c = true) name →
  (∀ c, head rest = Some c → isword c = false) →
  substitute_at env prev ("$"%char :: name ++ rest)
  = default [] (env !! name) ++ substitute_at env (last name) rest.
Proof.
  intros Hprev Hne Hname Hrest. unfold substitute_at.
  rewrite (sub_at_match _ _ _ _ _ _ {[1 := name]})
    by by apply match_at_word.
  rewrite replace_var_word. do 2 f_equal.
  unfold prev_after. destruct (last name) eqn:Hl; [done|].
  by apply last_None in Hl.
Qed.

Lemma substitute_at_braces env prev (name rest : str) :
  prev ≠ Some "\"%char → name ≠ [] → "}"%char ∉ name →
  substitute_at env prev ("$"%char :: "{"%char :: name ++ "}"%char :: rest)
  = default [] (env !! name) ++ substitute_at env (Some "}"%char) rest.
Proof.
  intros Hprev Hne Hname. unfold substitute_at.
  assert ("{"%char :: name ++ "}"%char :: rest
          = ("{"%char :: name ++ ["}"%char]) ++ rest) as Heq.
  { simpl. by rewrite <- app_assoc. }
  rewrite Heq.
  rewrite (sub_at_match _ _ _ _ _ _
             (<[1 := "{"%char :: name ++ ["}"%char]]> {[2 := name]})).
  - rewrite replace_var_braces by done. do 2 f_equal.
    unfold prev_after.
    change ("{"%char :: name ++ ["}"%char])
      with (("{"%char :: name) ++ ["}"%char]).
    by rewrite last_snoc.
  - rewrite <- Heq, match_at_braces by done. do 2 f_equal.
    cbn [length]. rewrite length_app. cbn [length]. lia.
Qed.

Lemma substitute_at_escaped env (rest : str) :
  substitute_at env (Some "\"%char) ("$"%char :: rest)
  = "$"%char :: substitute_at env (Some "$"%char) rest.
Proof. done. Qed.

Lemma substitute_at_other env prev c (rest : str) :
  c ≠ "$"%char →
  substitute_at env prev (c :: rest) = c :: substitute_at env (Some c) rest.
Proof.
  intros Hc. unfold substitute_at. apply sub_at_no_match.
  by apply match_at_other.
Qed.

Lemma substitute_at_nil env prev : substitute_at env prev [] = [].
Proof. unfold substitute_at. cbn [sub_at]. by rewrite match_at_end. Qed.

Lemma partition_found c (a b : str) :
  c ∉ a → partition c (a ++ c :: b) = (a, [c], b).
Proof.
  induction a as [|x a IH]; intros Hc; simpl.
  - by rewrite Ascii.eqb_refl.
  - apply not_elem_of_cons in Hc as [Hne Ha].
    destruct (Ascii.eqb_spec x c) as [->|_]; [done|]. by rewrite IH.
Qed.

Lemma partition_missing c (a : str) : c ∉ a → partition c a = (a, [], []).
Proof.
  induction a as [|x a IH]; intros Hc; simpl; [done|].
  apply not_elem_of_cons in Hc as [Hne Ha].
  destruct (Ascii.eqb_spec x c) as [->|_]; [done|]. by rewrite IH.
Qed.

(** An assignment stores the value substituted in the environment as it
    is before the assignment. *)
Lemma handle_line_assign env (var val : str) :
  "="%char ∉ var →
  handle_line env (var ++ "="%char :: val)
  = <[var := substitute_at env None val]> env.
Proof.
  intros Hvar. unfold handle_line. by rewrite partition_found.
Qed.

Lemma handle_line_ignore env (line : str) :
  "="%char ∉ line → handle_line env line = env.
Proof. intros Hl. unfold handle_line. by rewrite partition_missing. Qed.

End SubstituteFacts.

(** ** The claims on substitution *)

Section SubstituteClaims.
Import Str Re.

(** C3.  Where the scan of a value stands at a dollar that is not behind a
    backslash, a token [$NAME] (a longest run of word characters) or
    [${NAME}] (a name that is not empty, up to the first closing brace) is
    replaced by the value of [NAME] in the environment, or by nothing when
    [NAME] is unset.  A dollar behind a backslash is copied with its
    backslash.  The result is what the assignment stores, so after [A=foo]
    the line [B=$A/bar] sets [B] to [foo/bar]. *)
Theorem C3_tokens_replaced_escaped_dollar_kept (env : environ) :
  (∀ prev (name rest : str),
     prev ≠ Some "\"%char → name ≠ [] →
     Forall (λ c, isword c = true) name →
     (∀ c, head rest = Some c → isword c = false) →
     substitute_at env prev ("$"%char :: name ++ rest)
     = default [] (env !! name) ++ substitute_at env (last name) rest)
  ∧ (∀ prev (name rest : str),
       prev ≠ Some "\"%char → name ≠ [] → "}"%char ∉ name →
       substitute_at env prev
         ("$"%char :: "{"%char :: name ++ "}"%char :: rest)
       = default [] (env !! name) ++ substitute_at env (Some "}"%char) rest)
  ∧ (∀ prev (rest : str),
       substitute_at env prev ("\"%char :: "$"%char :: rest)
       = "\"%char :: "$"%char :: substitute_at env (Some "$"%char) rest)
  ∧ (∀ var val : str,
       "="%char ∉ var →
       handle_line env (var ++ "="%char :: val)
       = <[var := substitute_at env None val]> env)
  ∧ handle_line env "B=$A/bar"
    = <[("B" : str) := default [] (env !! ("A" : str)) ++ "/bar"]> env
  ∧ update_env_from_lines ∅ [("A=foo" : str) ++ [LF]; ("B=$A/bar" : str) ++ [LF]]
      !! ("B" : str) = Some ("foo/bar" : str).
Proof.
  split_and!.
  - apply substitute_at_word.
  - apply substitute_at_braces.
  - intros prev rest. rewrite substitute_at_other by done.
    by rewrite substitute_at_escaped.
  - apply handle_line_assign.
  - reflexivity.
  - by vm_compute.
Qed.

Lemma C3_witness :
  substitute_at ∅ None ("$"%char :: ("HOME" : str) ++ ("/bin" : str))
  = default [] ((∅ : environ) !! ("HOME" : str))
    ++ substitute_at ∅ (last ("HOME" : str)) "/bin"
  ∧ substitute_at ∅ None
      ("$"%char :: "{"%char :: ("HOME" : str) ++ "}"%char :: ("/bin" : str))
    = default [] ((∅ : environ) !! ("HOME" : str))
      ++ substitute_at ∅ (Some "}"%char) "/bin".
Proof.
  destruct (C3_tokens_replaced_escaped_dollar_kept ∅) as (Hw & Hb & _).
  split.
  - apply Hw; [done|done|by repeat constructor|by intros c [= <-]].
  - apply Hb; [done|done|by apply (bool_decide_unpack _)].
Defined.

(** The name in braces may be empty; then the variable looked up is the one
    named by the two braces. *)
Lemma substitute_at_empty_braces env prev (rest : str) :
  prev ≠ Some "\"%char →
  substitute_at env prev ("$"%char :: "{"%char :: "}"%char :: rest)
  = default [] (env !! ("{}" : str)) ++ substitute_at env (Some "}"%char) rest.
Proof.
  intros Hprev.
  pose proof (match_at_braces prev [] rest Hprev) as Hm.
  exact (sub_at_match pattern (replace_var env) prev "$" ("{}" : str) rest _
           (Hm ltac:(by intros ?%elem_of_nil))).
Qed.

(** C4, as the code has it.  The line [C=\$A] stores the backslash, the
    dollar and the [A]: nothing is substituted and the backslash stays in
    the stored value. *)
Theorem C4_escaped_dollar_stored_with_backslash (env : environ) :
  handle_line env "C=\$A" = <[("C" : str) := ("\$A" : str)]> env.
Proof. done. Qed.

(** C4, as stated, fails: the value stored for [C] is not [$A]. *)
Lemma C4_counterexample :
  handle_line ∅ "C=\$A" !! ("C" : str) = Some ("\$A" : str)
  ∧ handle_line ∅ "C=\$A" !! ("C" : str) ≠ Some ("$A" : str).
Proof. by vm_compute. Qed.

End SubstituteClaims.

(** ** The files that are read *)

Section MergerFacts.
Import Str.

Lemma compare_antisym (a b : str) : compare b a = CompOpp (compare a b).
Proof.
  revert b. induction a as [|x a IH]; intros [|y b]; simpl; try done.
  rewrite (Nat.compare_antisym (nat_of_ascii x) (nat_of_ascii y)).
  destruct (nat_of_ascii x ?= nat_of_ascii y); simpl; auto.
Qed.

Lemma compare_refl (a : str) : compare a a = Eq.
Proof.
  induction a as [|x a IH]; simpl; [done|]. by rewrite Nat.compare_refl.
Qed.

Lemma compare_Lt_ne (a b : str) : compare a b = Lt → a ≠ b.
Proof. intros Hlt ->. by rewrite compare_refl in Hlt. Qed.

#[local] Instance item_le_total : Total item_le.
Proof.
  intros [a1 a2] [b1 b2]. unfold item_le. simpl.
  rewrite (compare_antisym a1 b1), (compare_antisym a2 b2).
  destruct (compare a1 b1), (compare a2 b2); simpl; auto.
Qed.

(** In a dictionary filled from a list, a key holds the last item of the
    list with this key. *)
Lemma fold_insert_lookup {A} (key : A → str) (l : list A) (k : str) (p : A) :
  fold_left (λ m x, <[key x := x]> m) l (∅ : gmap str A) !! k = Some p
  ↔ ∃ i, l !! i = Some p ∧ key p = k
         ∧ ∀ j q, i < j → l !! j = Some q → key q ≠ k.
Proof.
  induction l as [|x l IH] using rev_ind.
  { simpl. rewrite lookup_empty. split; [done|by intros (i & ? & _)]. }
  rewrite fold_left_app. simpl.
  destruct (decide (key x = k)) as [Hk|Hk].
  - rewrite Hk, lookup_insert_eq. split.
    + intros [= ->]. exists (length l). split_and!; [|done|].
      * by rewrite lookup_app_r, Nat.sub_diag.
      * intros j q Hj Hq. apply lookup_lt_Some in Hq.
        rewrite length_app in Hq. simpl in Hq. lia.
    + intros (i & Hi & Hp & Hlast).
      destruct (decide (i < length l)) as [Hlt|Hge].
      * exfalso. apply (Hlast (length l) x); [done| |done].
        by rewrite lookup_app_r, Nat.sub_diag.
      * pose proof (lookup_lt_Some _ _ _ Hi) as Hlen.
        rewrite length_app in Hlen. simpl in Hlen.
        assert (i = length l) as -> by lia.
        rewrite lookup_app_r, Nat.sub_diag in Hi by done.
        by injection Hi as ->.
  - rewrite lookup_insert_ne by done. rewrite IH. split.
    + intros (i & Hi & Hp & Hlast). exists i. split_and!; [|done|].
      * rewrite lookup_app_l; [done|by eapply lookup_lt_Some].
      * intros j q Hj Hq.
        destruct (decide (j < length l)) as [Hlt|Hge].
        -- rewrite lookup_app_l in Hq by done. by eapply Hlast.
        -- rewrite lookup_app_r in Hq by lia.
           apply list_lookup_singleton_Some in Hq as [_ <-]. done.
    + intros (i & Hi & Hp & Hlast).
      destruct (decide (i < length l)) as [Hlt|Hge].
      * exists i. rewrite lookup_app_l in Hi by done. split_and!; [done..|].
        intros j q Hj Hq. apply (Hlast j q Hj).
        rewrite lookup_app_l; [done|by eapply lookup_lt_Some].
      * rewrite lookup_app_r in Hi by lia.
        apply list_lookup_singleton_Some in Hi as [_ <-]. done.
Qed.

Lemma fold_insert_is_Some {A} (key : A → str) (l : list A) (k : str) :
  is_Some (fold_left (λ m x, <[key x := x]> m) l (∅ : gmap str A) !! k)
  ↔ ∃ q, q ∈ l ∧ key q = k.
Proof.
  induction l as [|x l IH] using rev_ind.
  { simpl. rewrite lookup_empty. split; [by intros [? ?]|].
    by intros (q & ?%elem_of_nil & _). }
  rewrite fold_left_app. simpl.
  destruct (decide (key x = k)) as [Hk|Hk].
  - rewrite Hk, lookup_insert_eq. split; [|done]. intros _.
    exists x. split; [|done]. apply elem_of_app. right. by left.
  - rewrite lookup_insert_ne by done. rewrite IH. split.
    + intros (q & Hq & Hkq). exists q. split; [|done].
      apply elem_of_app. by left.
    + intros (q & Hq & Hkq). apply elem_of_app in Hq as [Hq|Hq].
      * by exists q.
      * apply list_elem_of_singleton in Hq as ->. done.
Qed.

Lemma conf_files_lookup fs dirs (n p : str) :
  conf_files fs dirs !! n = Some p
  ↔ ∃ i, globbed fs dirs !! i = Some p ∧ conf_name p = n
         ∧ ∀ j q, i < j → globbed fs dirs !! j = Some q → conf_name q ≠ n.
Proof. apply (fold_insert_lookup conf_name). Qed.

Lemma conf_files_key fs dirs (n p : str) :
  conf_files fs dirs !! n = Some p → conf_name p = n.
Proof. by intros (i & _ & ? & _)%conf_files_lookup. Qed.

Lemma elem_of_conf_paths fs dirs (p : str) :
  p ∈ conf_paths fs dirs ↔ ∃ n, conf_files fs dirs !! n = Some p.
Proof.
  unfold conf_paths. rewrite merge_sort_Permutation.
  rewrite list_elem_of_fmap. split.
  - intros ([n q] & -> & Hin). exists n. by apply elem_of_map_to_list.
  - intros (n & Hn). exists (n, p). split; [done|].
    by apply elem_of_map_to_list.
Qed.

(** The names of the files read are the keys of the dictionary. *)
Lemma conf_paths_names fs dirs :
  conf_name <$> conf_paths fs dirs
  = (merge_sort item_le (map_to_list (conf_files fs dirs))).*1.
Proof.
  unfold conf_paths. rewrite <- list_fmap_compose.
  apply Forall_fmap_ext_1, Forall_forall. intros [n p] Hin. simpl.
  rewrite merge_sort_Permutation in Hin.
  apply elem_of_map_to_list in Hin. by eapply conf_files_key.
Qed.

Lemma conf_paths_NoDup fs dirs : NoDup (conf_name <$> conf_paths fs dirs).
Proof.
  rewrite conf_paths_names, merge_sort_Permutation.
  apply NoDup_fst_map_to_list.
Qed.

(** Two files are read in the order of their names. *)
Lemma conf_paths_two fs dirs (n1 n2 f1 f2 : str) :
  conf_files fs dirs = <[n1 := f1]> {[n2 := f2]} →
  compare n1 n2 = Lt →
  conf_paths fs dirs = [f1; f2].
Proof.
  intros Hfiles Hlt. unfold conf_paths. rewrite Hfiles.
  pose proof (compare_Lt_ne _ _ Hlt) as Hne.
  assert (merge_sort item_le
            (map_to_list (<[n1 := f1]> ({[n2 := f2]} : gmap str str)))
          ≡ₚ [(n1, f1); (n2, f2)]) as Hperm.
  { etrans; [apply merge_sort_Permutation|].
    etrans; [apply map_to_list_insert; by rewrite lookup_singleton_ne|].
    by rewrite map_to_list_singleton. }
  pose proof (Sorted_merge_sort item_le
                (map_to_list (<[n1 := f1]> ({[n2 := f2]} : gmap str str))))
    as Hsorted.
  symmetry in Hperm. apply Permutation_length_2_inv in Hperm as [->| Heq].
  - done.
  - rewrite Heq in Hsorted. exfalso.
    inversion Hsorted as [|? ? _ Hhd]; subst.
    inversion Hhd as [|? ? Hle]; subst.
    unfold item_le in Hle. simpl in Hle.
    rewrite (compare_antisym n1 n2), Hlt in Hle. done.
Qed.

End MergerFacts.

(** ** The claims on the merger *)

Section MergerClaims.
Import Str.

(** C5.  An assignment substitutes in the environment as it is before the
    assignment, so a value may refer to the variable it sets: when the
    file read first (the one whose name sorts first) holds [PATH=/x] and
    the file read after it holds [PATH=$PATH:/y], [PATH] ends as
    [/x:/y]. *)
Theorem C5_value_reads_environment_before_assignment
    (fs : filesystem) (dirs : list str) (n1 n2 f1 f2 : str) :
  conf_files fs dirs = <[n1 := f1]> {[n2 := f2]} →
  compare n1 n2 = Lt →
  fs_open fs f1 = Some (("PATH=/x" : str) ++ [LF]) →
  fs_open fs f2 = Some (("PATH=$PATH:/y" : str) ++ [LF]) →
  (∀ (env : environ) (var val : str),
     "="%char ∉ var →
     handle_line env (var ++ "="%char :: val)
     = <[var := substitute_at env None val]> env)
  ∧ (∀ env : environ,
       handle_line env "PATH=$PATH:/y"
       = <[("PATH" : str) := default [] (env !! ("PATH" : str)) ++ ":/y"]> env)
  ∧ ∃ env, current_env fs dirs = Some env
           ∧ env !! ("PATH" : str) = Some ("/x:/y" : str).
Proof.
  intros Hfiles Hlt H1 H2. split_and!.
  - intros env var val. apply handle_line_assign.
  - reflexivity.
  - unfold current_env. rewrite (conf_paths_two _ _ n1 n2 f1 f2) by done.
    cbn [update_env_from_files]. unfold update_env_from_file.
    rewrite H1. cbn [mbind option_bind]. rewrite H2. cbn [mbind option_bind].
    eexists. split; [reflexivity|]. by vm_compute.
Qed.

Lemma C5_witness :
  let fs := flat_fs
    [(("/etc/env.d" : str),
      [(("20-b.conf" : str), ("PATH=$PATH:/y" : str) ++ [LF]);
       (("10-a.conf" : str), ("PATH=/x" : str) ++ [LF])])] in
  ∃ env, current_env fs [("/etc/env.d" : str)] = Some env
         ∧ env !! ("PATH" : str) = Some ("/x:/y" : str).
Proof.
  intros fs.
  refine (proj2 (proj2 (C5_value_reads_environment_before_assignment fs
            [("/etc/env.d" : str)] "10-a.conf" "20-b.conf"
            "/etc/env.d/10-a.conf" "/etc/env.d/20-b.conf" _ _ _ _)));
    by vm_compute.
Defined.

(** C6.  A path is read exactly when it is the last one of its name among
    the paths the globs give, directory after directory, and no name is
    read twice.  So when [d] is the last directory that holds a file of
    some name, the one file of this name that is read is in [d].  With
    [x.conf] holding [K=1] in [A] and [K=2] in [B], the directories [A]
    then [B] give [K] the value [2]. *)
Theorem C6_last_directory_with_the_name_wins
    (fs : filesystem) (dirs : list str) :
  (∀ p, p ∈ conf_paths fs dirs
        ↔ ∃ i, globbed fs dirs !! i = Some p
               ∧ ∀ j q, i < j → globbed fs dirs !! j = Some q →
                        conf_name q ≠ conf_name p)
  ∧ NoDup (conf_name <$> conf_paths fs dirs)
  ∧ (∀ ds1 d ds2 n,
       dirs = ds1 ++ d :: ds2 →
       (∃ p, p ∈ fs_glob fs (d ++ "/*.conf") ∧ conf_name p = n) →
       (∀ d' q, d' ∈ ds2 → q ∈ fs_glob fs (d' ++ "/*.conf") →
                conf_name q ≠ n) →
       ∃ p, p ∈ fs_glob fs (d ++ "/*.conf") ∧ conf_name p = n
            ∧ p ∈ conf_paths fs dirs
            ∧ ∀ q, q ∈ conf_paths fs dirs → conf_name q = n → q = p)
  ∧ current_env fs dirs = update_env_from_files fs ∅ (conf_paths fs dirs)
  ∧ (let ab := flat_fs
       [(("A" : str), [(("x.conf" : str), ("K=1" : str) ++ [LF])]);
        (("B" : str), [(("x.conf" : str), ("K=2" : str) ++ [LF])])] in
     conf_paths ab [("A" : str); ("B" : str)] = [("B/x.conf" : str)]
     ∧ ∃ env, current_env ab [("A" : str); ("B" : str)] = Some env
              ∧ env !! ("K" : str) = Some ("2" : str)).
Proof.
  assert (∀ p, p ∈ conf_paths fs dirs
        ↔ ∃ i, globbed fs dirs !! i = Some p
               ∧ ∀ j q, i < j → globbed fs dirs !! j = Some q →
                        conf_name q ≠ conf_name p) as Hin.
  { intros p. rewrite elem_of_conf_paths. split.
    - intros (n & (i & Hi & <- & Hlast)%conf_files_lookup). by exists i.
    - intros (i & Hi & Hlast). exists (conf_name p).
      apply conf_files_lookup. by exists i. }
  split_and!; [done|apply conf_paths_NoDup| |done|].
  - intros ds1 d ds2 n -> (p0 & Hp0 & Hn0) Hlater.
    assert (globbed fs (ds1 ++ d :: ds2)
            = globbed fs ds1 ++ fs_glob fs (d ++ "/*.conf") ++ globbed fs ds2)
      as Hglob.
    { unfold globbed. by rewrite bind_app, bind_cons. }
    destruct (proj2 (fold_insert_is_Some conf_name
                       (globbed fs (ds1 ++ d :: ds2)) n)) as [p Hp].
    { exists p0. split; [|done]. rewrite Hglob.
      apply elem_of_app. right. apply elem_of_app. by left. }
    fold (conf_files fs (ds1 ++ d :: ds2)) in Hp.
    exists p. pose proof Hp as (i & Hi & Hn & Hlast)%conf_files_lookup.
    split_and!; [|done|apply elem_of_conf_paths; by exists n|].
    + rewrite Hglob in Hi.
      apply lookup_app_Some in Hi as [Hi|[Hlen Hi]].
      * exfalso. apply list_elem_of_lookup_1 in Hp0 as [k Hk].
        apply (Hlast (length (globbed fs ds1) + k) p0); [|by rewrite Hglob,
          lookup_app_r, lookup_app_l, Nat.add_comm, Nat.add_sub
          by (try apply lookup_lt_Some in Hk; lia)|done].
        apply lookup_lt_Some in Hi. lia.
      * apply lookup_app_Some in Hi as [Hi|[_ Hi]];
          [by eapply list_elem_of_lookup_2|].
        exfalso. apply list_elem_of_lookup_2 in Hi.
        unfold globbed in Hi. apply list_elem_of_bind in Hi as (d' & Hq & Hd').
        by apply (Hlater d' p).
    + intros q (n' & Hq)%elem_of_conf_paths Hqn.
      pose proof (conf_files_key _ _ _ _ Hq) as Hkey.
      rewrite Hqn in Hkey. subst n'. congruence.
  - cbv zeta. split; [by vm_compute|].
    eexists. split; by vm_compute.
Qed.

Lemma C6_witness :
  let ab := flat_fs
    [(("A" : str), [(("x.conf" : str), ("K=1" : str) ++ [LF])]);
     (("B" : str), [(("x.conf" : str), ("K=2" : str) ++ [LF])])] in
  ∃ p, p ∈ fs_glob ab (("B" : str) ++ "/*.conf")
       ∧ conf_name p = ("x.conf" : str)
       ∧ p ∈ conf_paths ab [("A" : str); ("B" : str)]
       ∧ ∀ q, q ∈ conf_paths ab [("A" : str); ("B" : str)] →
              conf_name q = ("x.conf" : str) → q = p.
Proof.
  intros ab.
  refine (proj1 (proj2 (proj2 (C6_last_directory_with_the_name_wins ab
            [("A" : str); ("B" : str)])))
            [("A" : str)] ("B" : str) [] ("x.conf" : str) eq_refl _ _).
  - exists ("B/x.conf" : str). split; [|by vm_compute].
    apply (bool_decide_unpack _). by vm_compute.
  - by intros d' q ?%elem_of_nil.
Defined.

End MergerClaims.

(** ** Reading the lines of a file *)

Section LineFacts.
Import Str.

Lemma rstrip_spaces (ws : str) :
  Forall (λ c, isspace c = true) ws → rstrip ws = [].
Proof. induction 1 as [|c ws Hc _ IH]; simpl; [done|]. by rewrite IH, Hc. Qed.

Lemma rstrip_app_spaces (s ws : str) :
  Forall (λ c, isspace c = true) ws → rstrip (s ++ ws) = rstrip s.
Proof.
  intros Hws. induction s as [|c s IH]; simpl.
  - by apply rstrip_spaces.
  - by rewrite IH.
Qed.

Lemma rstrip_last (s : str) c : last (rstrip s) = Some c → isspace c = false.
Proof.
  induction s as [|x s IH]; simpl; [done|].
  destruct (rstrip s) as [|y r] eqn:Hr.
  - destruct (isspace x) eqn:Hx; [done|]. by intros [= <-].
  - rewrite last_cons_cons. apply IH.
Qed.

Lemma rstrip_prefix (pre s : str) :
  rstrip s ≠ [] → rstrip (pre ++ s) = pre ++ rstrip s.
Proof.
  intros Hne. induction pre as [|x pre IH]; simpl; [done|].
  rewrite IH. by destruct (pre ++ rstrip s) eqn:Heq;
    [apply app_eq_nil in Heq as [_ ?]|].
Qed.

Lemma chop_snoc (b : str) c : chop (b ++ [c]) = b.
Proof.
  unfold chop. rewrite length_app. simpl.
  replace (length b + 1 - 1) with (length b) by lia. apply take_app_length.
Qed.

Lemma continued_body (line : str) :
  continued line → rstrip line = body line ++ ["\"%char].
Proof.
  intros [_ Hend]. apply (endswith_last _ "\"%char) in Hend.
  apply last_Some in Hend as [b Hb]. unfold body. rewrite Hb.
  by rewrite chop_snoc.
Qed.

Lemma read_line_comment env (full line : str) :
  startswith line "#" = true → read_line (env, full) line = (env, full).
Proof. intros Hc. unfold read_line. by rewrite Hc. Qed.

Lemma read_line_continued env (full line : str) :
  continued line → read_line (env, full) line = (env, full ++ body line).
Proof. intros [Hc Hend]. unfold read_line. by rewrite Hc, Hend. Qed.

Lemma read_line_complete env (full line : str) :
  startswith line "#" = false → endswith (rstrip line) "\" = false →
  read_line (env, full) line
  = (handle_line env (rstrip (full ++ rstrip line)), []).
Proof. intros Hc Hend. unfold read_line. by rewrite Hc, Hend. Qed.

(** Continued lines only grow [fullline]. *)
Lemma read_lines_continued env (full : str) (conts : list str) :
  Forall continued conts →
  fold_left read_line conts (env, full)
  = (env, full ++ concat (body <$> conts)).
Proof.
  intros Hall. revert full.
  induction Hall as [|line conts Hline _ IH]; intros full;
    cbn [fold_left fmap list_fmap concat].
  - by rewrite app_nil_r.
  - rewrite read_line_continued by done. rewrite IH. by rewrite <- app_assoc.
Qed.

Lemma handle_line_nil env : handle_line env [] = env.
Proof. done. Qed.

(** Comment lines change nothing, whatever is being gathered. *)
Lemma read_lines_skip_comments st (lines : list str) :
  fold_left read_line lines st
  = fold_left read_line (filter (λ l, startswith l "#" = false) lines) st.
Proof.
  revert st. induction lines as [|line lines IH]; intros [env full]; [done|].
  destruct (startswith line "#") eqn:Hc.
  - rewrite filter_cons_False by by rewrite Hc.
    cbn [fold_left]. by rewrite read_line_comment.
  - rewrite filter_cons_True by done. cbn [fold_left]. apply IH.
Qed.

End LineFacts.

(** ** The claims on lines *)

Section LineClaims.
Import Str Re.

(** C7.  Comment lines apart, which are skipped wherever they stand: a
    line that ends in a backslash (once its trailing whitespace is gone)
    gives [fullline] its text without the backslash and nothing is
    evaluated; this repeats over any number of such lines, and the line
    that closes them is appended before the whole is evaluated.  When the
    file ends after such lines, what was gathered is evaluated as the last
    logical line.  [K=a\] followed by [b] gives [K] the value [ab]. *)
Theorem C7_backslash_joins_lines (env : environ) :
  (∀ (full : str) lines,
     fold_left read_line lines (env, full)
     = fold_left read_line
         (filter (λ l, startswith l "#" = false) lines) (env, full))
  ∧ (∀ line, continued line → rstrip line = body line ++ ["\"%char])
  ∧ (∀ (full : str) conts,
       Forall continued conts →
       fold_left read_line conts (env, full)
       = (env, full ++ concat (body <$> conts)))
  ∧ (∀ (full : str) conts last rest,
       Forall continued conts →
       startswith last "#" = false → endswith (rstrip last) "\" = false →
       fold_left read_line (conts ++ last :: rest) (env, full)
       = fold_left read_line rest
           (handle_line env
              (rstrip (full ++ concat (body <$> conts) ++ rstrip last)),
            []))
  ∧ (∀ conts last,
       Forall continued conts →
       startswith last "#" = false → endswith (rstrip last) "\" = false →
       update_env_from_lines env (conts ++ [last])
       = handle_line env (rstrip (concat (body <$> conts) ++ rstrip last)))
  ∧ (∀ conts,
       Forall continued conts →
       update_env_from_lines env conts
       = handle_line env (rstrip (concat (body <$> conts))))
  ∧ update_env_from_lines ∅
      (lines (universal_newlines (("K=a\" : str) ++ [LF] ++ ("b" : str) ++ [LF])))
      !! ("K" : str) = Some ("ab" : str)
  ∧ update_env_from_lines ∅
      (lines (universal_newlines (("K=a\" : str) ++ [LF] ++ ("b\" : str))))
      !! ("K" : str) = Some ("ab" : str).
Proof.
  assert (∀ (full : str) conts last rest,
       Forall continued conts →
       startswith last "#" = false → endswith (rstrip last) "\" = false →
       fold_left read_line (conts ++ last :: rest) (env, full)
       = fold_left read_line rest
           (handle_line env
              (rstrip (full ++ concat (body <$> conts) ++ rstrip last)),
            [])) as Hjoin.
  { intros full conts last rest Hconts Hc Hend.
    rewrite fold_left_app, read_lines_continued by done.
    cbn [fold_left]. rewrite read_line_complete by done.
    by rewrite <- app_assoc. }
  split_and!; [|apply continued_body| |done| | |by vm_compute..].
  - intros full lines. apply read_lines_skip_comments.
  - intros full conts. apply read_lines_continued.
  - intros conts last Hconts Hc Hend. unfold update_env_from_lines.
    by rewrite Hjoin.
  - intros conts Hconts. unfold update_env_from_lines.
    by rewrite read_lines_continued.
Qed.

Lemma C7_witness :
  update_env_from_lines ∅
    ([("K=a\" : str) ++ [LF]; ("b \  " : str) ++ [LF]]
       ++ [("c" : str) ++ [LF]])
  = handle_line ∅
      (rstrip (concat (body <$> [("K=a\" : str) ++ [LF];
                                 ("b \  " : str) ++ [LF]])
               ++ rstrip (("c" : str) ++ [LF]))).
Proof.
  apply (proj1 (proj2 (proj2 (proj2 (proj2
           (C7_backslash_joins_lines ∅)))))).
  - by repeat constructor.
  - reflexivity.
  - reflexivity.
Defined.

Lemma substitute_at_plain env prev (pre val : str) :
  "$"%char ∉ pre →
  substitute_at env prev (pre ++ val)
  = pre ++ substitute_at env (prev_after prev pre) val.
Proof.
  revert prev. induction pre as [|c pre IH]; intros prev Hpre; [done|].
  apply not_elem_of_cons in Hpre as [Hc Hpre]. cbn [app].
  rewrite substitute_at_other by done. rewrite IH by done.
  by rewrite prev_after_cons with (prev := prev).
Qed.

Lemma spaces_no_dollar (ws : str) :
  Forall (λ c, isspace c = true) ws → "$"%char ∉ ws.
Proof.
  intros Hws Hin. rewrite Forall_forall in Hws.
  by pose proof (Hws _ Hin).
Qed.

Lemma startswith_app_spaces (line ws : str) :
  Forall (λ c, isspace c = true) ws →
  startswith (line ++ ws) "#" = startswith line "#".
Proof.
  intros Hws. destruct line as [|c line]; [|done].
  destruct Hws as [|w ws Hw _]; [done|]. simpl.
  unfold startswith. simpl. rewrite take_0.
  rewrite bool_decide_eq_false_2; [done|]. by intros [= ->].
Qed.

(** C8, as the code has it.  Trailing whitespace of a line that is read
    changes nothing, and a logical line is evaluated without trailing
    whitespace.  Leading whitespace is never stripped: before the name it
    is part of the name; behind the equals sign, or at the start of a line
    that continues another, it is part of the value. *)
Theorem C8_trailing_whitespace_dropped_leading_kept (env : environ) :
  (∀ (full line ws : str),
     Forall (λ c, isspace c = true) ws →
     read_line (env, full) (line ++ ws) = read_line (env, full) line)
  ∧ (∀ (full line : str),
       startswith line "#" = false → endswith (rstrip line) "\" = false →
       read_line (env, full) line
       = (handle_line env (rstrip (full ++ rstrip line)), [])
       ∧ ∀ c, last (rstrip (full ++ rstrip line)) = Some c →
              isspace c = false)
  ∧ (∀ ws s : str, rstrip s ≠ [] → rstrip (ws ++ s) = ws ++ rstrip s)
  ∧ (∀ ws var val : str,
       "="%char ∉ ws ++ var →
       handle_line env (ws ++ var ++ "="%char :: val)
       = <[ws ++ var := substitute_at env None val]> env)
  ∧ (∀ var ws val : str,
       "="%char ∉ var → Forall (λ c, isspace c = true) ws →
       handle_line env (var ++ "="%char :: ws ++ val)
       = <[var := ws ++ substitute_at env (prev_after None ws) val]> env)
  ∧ update_env_from_lines ∅ [("  K =  v  " : str) ++ [LF]]
    = {[("  K " : str) := ("  v" : str)]}
  ∧ update_env_from_lines ∅ [("K=a\" : str) ++ [LF]; ("  b" : str) ++ [LF]]
    = {[("K" : str) := ("a  b" : str)]}.
Proof.
  split_and!; [| | | | |by vm_compute..].
  - intros full line ws Hws. unfold read_line.
    by rewrite startswith_app_spaces, rstrip_app_spaces.
  - intros full line Hc Hend. split; [by apply read_line_complete|].
    apply rstrip_last.
  - apply rstrip_prefix.
  - intros ws var val Hno. rewrite app_assoc. by apply handle_line_assign.
  - intros var ws val Hvar Hws. rewrite handle_line_assign by done.
    by rewrite substitute_at_plain by by apply spaces_no_dollar.
Qed.

Lemma C8_witness :
  handle_line ∅ (("  " : str) ++ ("K" : str) ++ "="%char :: ("v" : str))
  = <[("  " : str) ++ ("K" : str) := substitute_at ∅ None "v"]> ∅
  ∧ handle_line ∅ (("K" : str) ++ "="%char :: ("  " : str) ++ ("v" : str))
    = <[("K" : str) :=
          ("  " : str) ++ substitute_at ∅ (prev_after None "  ") "v"]> ∅.
Proof.
  destruct (C8_trailing_whitespace_dropped_leading_kept ∅)
    as (_ & _ & _ & Hname & Hvalue & _).
  split.
  - apply Hname. by apply (bool_decide_unpack _).
  - apply Hvalue; [by apply (bool_decide_unpack _)|by repeat constructor].
Defined.

(** C8, as stated, fails: the whitespace before the name goes into the
    name, and the value assigned is [v] alone. *)
Lemma C8_counterexample :
  update_env_from_lines ∅ [("  K=v" : str) ++ [LF]]
  = {[("  K" : str) := ("v" : str)]}
  ∧ update_env_from_lines ∅ [("  K=v" : str) ++ [LF]] !! ("K" : str) = None.
Proof. by vm_compute. Qed.

End LineClaims.

(** ** No line feed in a value *)

Section LineFeedFacts.
Import Str Re.

Lemma sub_at_without r repl c prev skip (s : str) :
  c ∉ s → (∀ g, c ∉ repl g) → c ∉ sub_at r repl prev skip s.
Proof.
  intros Hs Hrepl. revert prev skip.
  induction s as [|a s IH]; intros prev skip.
  - destruct skip; cbn [sub_at]; [|by intros ?%elem_of_nil].
    destruct (match_at r prev []) as [[g len]|];
      [|by intros ?%elem_of_nil].
    rewrite app_nil_r. apply Hrepl.
  - apply not_elem_of_cons in Hs as [Hne Hs]. specialize (IH Hs).
    destruct skip; cbn [sub_at]; [|apply IH].
    destruct (match_at r prev (a :: s)) as [[g [|len]]|];
      rewrite ?elem_of_app, ?elem_of_cons; intros Hin.
    + destruct Hin as [Hin|[Hin|Hin]]; [by apply (Hrepl g)|done|].
      by apply (IH (Some a) 0).
    + destruct Hin as [Hin|Hin]; [by apply (Hrepl g)|].
      by apply (IH (Some a) len).
    + destruct Hin as [Hin|Hin]; [done|]. by apply (IH (Some a) 0).
Qed.

Lemma replace_var_without c env g : env_without c env → c ∉ replace_var env g.
Proof.
  intros Henv. unfold replace_var, env_get.
  destruct (py_or _ _) as [n|]; [|by intros ?%elem_of_nil].
  destruct (env !! n) as [v|] eqn:Hn; simpl; [|by intros ?%elem_of_nil].
  by apply (Henv n v).
Qed.

Lemma partition_without c d (s : str) :
  c ∉ s → (c ∉ (partition d s).1.1) ∧ (c ∉ (partition d s).2).
Proof.
  induction s as [|a s IH]; intros Hs; simpl.
  { split; by intros ?%elem_of_nil. }
  apply not_elem_of_cons in Hs as [Hne Hs]. specialize (IH Hs).
  destruct (Ascii.eqb a d).
  - simpl. split; [by intros ?%elem_of_nil|done].
  - destruct (partition d s) as [[x op] y]. simpl in *.
    split; [|tauto]. rewrite not_elem_of_cons. tauto.
Qed.

Lemma handle_line_without c env (line : str) :
  env_without c env → c ∉ line → env_without c (handle_line env line).
Proof.
  intros Henv Hline. unfold handle_line.
  pose proof (partition_without c "=" line Hline) as [Hvar Hval].
  destruct (partition "=" line) as [[var op] val]. simpl in *.
  destruct op; [done|]. apply map_Forall_insert_2; [|done].
  apply sub_at_without; [done|]. intros g. by apply replace_var_without.
Qed.

Lemma rstrip_is_prefix (s : str) : ∃ t, s = rstrip s ++ t.
Proof.
  induction s as [|a s [t Ht]]; [by exists []|]. simpl.
  destruct (rstrip s) as [|y r].
  - destruct (isspace a); [by exists (a :: s)|by exists s].
  - exists t. simpl. by rewrite Ht at 1.
Qed.

Lemma rstrip_without c (s : str) : c ∉ s → c ∉ rstrip s.
Proof.
  intros Hs Hin. apply Hs. destruct (rstrip_is_prefix s) as [t Ht].
  rewrite Ht. apply elem_of_app. by left.
Qed.

(** A line of a text holds a line feed only as its last character. *)
Lemma lines_spec (s : str) :
  Forall (λ x, ∃ b, (LF ∉ b) ∧ (x = b ∨ x = b ++ [LF])) (lines s).
Proof.
  induction s as [|a s IH]; simpl; [done|].
  destruct (Ascii.eqb_spec a LF) as [->|Hne].
  - constructor; [|done]. exists []. split; [by intros ?%elem_of_nil|].
    by right.
  - destruct (lines s) as [|l ls].
    + repeat constructor. exists [a]. split; [|by left].
      by intros [?|?%elem_of_nil]%elem_of_cons.
    + inversion IH as [|? ? (b & Hb & Hl) Hls]; subst.
      constructor; [|done]. exists (a :: b). split.
      * rewrite not_elem_of_cons. split; [congruence|done].
      * destruct Hl as [->| ->]; [by left|by right].
Qed.

Lemma lines_rstrip_without (s : str) :
  Forall (λ x, LF ∉ rstrip x) (lines s).
Proof.
  eapply Forall_impl; [apply lines_spec|].
  intros x (b & Hb & [->| ->]).
  - by apply rstrip_without.
  - rewrite rstrip_app_spaces by by repeat constructor.
    by apply rstrip_without.
Qed.

Lemma read_line_without c env (full line : str) :
  env_without c env → c ∉ full → c ∉ rstrip line →
  env_without c (read_line (env, full) line).1
  ∧ (c ∉ (read_line (env, full) line).2).
Proof.
  intros Henv Hfull Hline. unfold read_line.
  destruct (startswith line "#"); [done|].
  destruct (endswith (rstrip line) "\"); simpl.
  - split; [done|]. rewrite elem_of_app. intros [?|Hin]; [done|].
    apply Hline. unfold chop in Hin. by eapply subseteq_take.
  - split; [|by intros ?%elem_of_nil].
    apply handle_line_without; [done|]. apply rstrip_without.
    rewrite elem_of_app. tauto.
Qed.

Lemma read_lines_without c st (ls : list str) :
  Forall (λ x, c ∉ rstrip x) ls →
  env_without c st.1 → c ∉ st.2 →
  env_without c (fold_left read_line ls st).1
  ∧ (c ∉ (fold_left read_line ls st).2).
Proof.
  intros Hls. revert st.
  induction Hls as [|l ls Hl _ IH]; intros [env full] Henv Hfull; [done|].
  cbn [fold_left]. simpl in Henv, Hfull.
  destruct (read_line_without c env full l Henv Hfull Hl) as [H1 H2].
  by apply IH.
Qed.

Lemma update_env_from_lines_without c env (ls : list str) :
  Forall (λ x, c ∉ rstrip x) ls → env_without c env →
  env_without c (update_env_from_lines env ls).
Proof.
  intros Hls Henv. unfold update_env_from_lines.
  destruct (read_lines_without c (env, []) ls Hls Henv) as [H1 H2].
  { by intros ?%elem_of_nil. }
  destruct (fold_left read_line ls (env, [])) as [env' full]. simpl in *.
  apply handle_line_without; [done|]. by apply rstrip_without.
Qed.

Lemma update_env_from_files_without fs env env' (paths : list str) :
  env_without LF env →
  update_env_from_files fs env paths = Some env' →
  env_without LF env'.
Proof.
  revert env. induction paths as [|path paths IH]; intros env Henv; simpl.
  - by intros [= <-].
  - unfold update_env_from_file.
    destruct (fs_open fs path) as [text|]; [|done]. simpl.
    apply IH. apply update_env_from_lines_without; [|done].
    apply lines_rstrip_without.
Qed.

(** No value of the merged environment holds a line feed. *)
Lemma current_env_without fs dirs env :
  current_env fs dirs = Some env → env_without LF env.
Proof.
  apply update_env_from_files_without. apply map_Forall_empty.
Qed.

Lemma lines_single (b : str) : LF ∉ b → lines (b ++ [LF]) = [b ++ [LF]].
Proof.
  induction b as [|a b IH]; intros Hb; [done|].
  apply not_elem_of_cons in Hb as [Hne Hb]. cbn [app lines].
  destruct (Ascii.eqb_spec a LF) as [->|_]; [done|]. by rewrite IH.
Qed.

End LineFeedFacts.

(** ** The claims on the whole run *)

Section RunClaims.
Import Str Pathlib.

(** C2 fails on the code.  On [/sbin/sbin:/bin/sbin:/bin/bin] one pass
    leaves [/bin/sbin] before its sibling [/bin/bin], which the loop had
    already passed, and a second pass changes the result again. *)
Theorem C2_second_pass_changes_result :
  rearrange_bin_sbin "/sbin/sbin:/bin/sbin:/bin/bin"
  = "/bin/sbin:/sbin/sbin:/bin/bin"
  ∧ rearrange_bin_sbin "/bin/sbin:/sbin/sbin:/bin/bin"
    = "/bin/bin:/bin/sbin:/sbin/sbin"
  ∧ rearrange_bin_sbin (rearrange_bin_sbin "/sbin/sbin:/bin/sbin:/bin/bin")
    ≠ rearrange_bin_sbin "/sbin/sbin:/bin/sbin:/bin/bin"
  ∧ path_items "/bin/sbin:/sbin/sbin:/bin/bin" !! 0
    = Some (Path [("/bin/sbin" : str)])
  ∧ path_items "/bin/sbin:/sbin/sbin:/bin/bin" !! 2
    = Some (sibling (Path [("/bin/sbin" : str)])).
Proof. by vm_compute. Qed.

Lemma conf_paths_nil fs : conf_paths fs [] = [].
Proof. unfold conf_paths, conf_files. simpl. by rewrite map_to_list_empty. Qed.

Lemma current_env_nil fs : current_env fs [] = Some ∅.
Proof. unfold current_env. by rewrite conf_paths_nil. Qed.

(** C9.  When the environment is merged without an error: no [PATH], or
    an empty one, ends the run with nothing written; so does a path that
    the rearrangement leaves as it is; any other path is written as
    [PATH=], the new value and a line feed, which is one line, to
    [90-rearrange-path.conf] in the last directory. *)
Theorem C9_override_written_only_for_changed_path
    (fs : filesystem) (dirs : list str) (env : environ) :
  current_env fs dirs = Some env →
  (env !! ("PATH" : str) = None ∨ env !! ("PATH" : str) = Some [] →
   rearrange_path fs dirs = Some None)
  ∧ (∀ path, env !! ("PATH" : str) = Some path →
       rearrange_bin_sbin path = path →
       rearrange_path fs dirs = Some None)
  ∧ (∀ path, env !! ("PATH" : str) = Some path → path ≠ [] →
       rearrange_bin_sbin path ≠ path →
       ∃ dir, last dirs = Some dir
              ∧ rearrange_path fs dirs
                = Some (Some (dir ++ "/90-rearrange-path.conf",
                              "PATH=" ++ rearrange_bin_sbin path ++ [LF]))
              ∧ lines (("PATH=" : str) ++ rearrange_bin_sbin path ++ [LF])
                = [("PATH=" : str) ++ rearrange_bin_sbin path ++ [LF]]).
Proof.
  intros Henv. unfold rearrange_path. rewrite Henv. cbn [mbind option_bind].
  split_and!.
  - by intros [-> | ->].
  - intros path -> Hsame. destruct path; [done|].
    by rewrite decide_True.
  - intros path Hpath Hne Hnew. rewrite Hpath.
    destruct path as [|c path]; [done|]. rewrite decide_False by done.
    destruct (last dirs) as [dir|] eqn:Hlast.
    + exists dir. split_and!; [done..|].
      rewrite (app_assoc _ _ [LF]). apply lines_single.
      rewrite elem_of_app. intros [Hin|Hin].
      * revert Hin. by apply (bool_decide_unpack _).
      * revert Hin. apply rearrange_bin_sbin_without; [done..|].
        by apply (current_env_without _ _ _ Henv ("PATH" : str)).
    + apply last_None in Hlast as ->. rewrite current_env_nil in Henv.
      injection Henv as <-. by rewrite lookup_empty in Hpath.
Qed.

Lemma C9_witness :
  let fs := flat_fs
    [(("/etc/env.d" : str),
      [(("50-path.conf" : str), ("PATH=/usr/sbin:/usr/bin" : str) ++ [LF])])] in
  ∃ dir, last [("/run/env.d" : str); ("/etc/env.d" : str)] = Some dir
         ∧ rearrange_path fs [("/run/env.d" : str); ("/etc/env.d" : str)]
           = Some (Some (dir ++ "/90-rearrange-path.conf",
                         "PATH="
                         ++ rearrange_bin_sbin "/usr/sbin:/usr/bin" ++ [LF]))
         ∧ lines (("PATH=" : str)
                  ++ rearrange_bin_sbin "/usr/sbin:/usr/bin" ++ [LF])
           = [("PATH=" : str)
              ++ rearrange_bin_sbin "/usr/sbin:/usr/bin" ++ [LF]].
Proof.
  intros fs.
  refine (proj2 (proj2 (C9_override_written_only_for_changed_path fs
            [("/run/env.d" : str); ("/etc/env.d" : str)]
            {[("PATH" : str) := ("/usr/sbin:/usr/bin" : str)]} _))
            ("/usr/sbin:/usr/bin" : str) _ _ _); by vm_compute.
Defined.

Lemma rearrange_loop_no_sbin n items :
  (∀ it, it ∈ items → ("sbin" : str) ∉ parts it) →
  rearrange_loop n items = items.
Proof.
  intros Hno. induction n as [|n IH]; [done|].
  rewrite rearrange_loop_S, IH.
  destruct (items !! n) as [it|] eqn:Hn.
  - apply (rearrange_step_skip _ _ it); [done|].
    apply Hno. by eapply list_elem_of_lookup_2.
  - unfold rearrange_step. by rewrite Hn.
Qed.

(** C10.  Every segment is parsed and written back, so even when no
    segment holds [sbin] and nothing is swapped the result is the text of
    the parsed segments, which parses to the same segments again: doubled
    slashes, dots and trailing slashes are gone and an empty segment is a
    dot.  [/usr//bin] and [/usr/bin/] hold
    no [sbin] and are changed, and for such a [PATH] the override is
    written. *)
Theorem C10_segments_are_rewritten_without_swap :
  (∀ path,
     (∀ it, it ∈ path_items path → ("sbin" : str) ∉ parts it) →
     rearrange_bin_sbin path
     = join ":" ((λ p, as_posix (Path [p])) <$> split ":" path))
  ∧ (∀ p, wf_path (Path [p]))
  ∧ (∀ p, Path [as_posix (Path [p])] = Path [p])
  ∧ (∀ it, it ∈ path_items "/usr//bin" → ("sbin" : str) ∉ parts it)
  ∧ (∀ it, it ∈ path_items "/usr/bin/" → ("sbin" : str) ∉ parts it)
  ∧ rearrange_bin_sbin "/usr//bin" = "/usr/bin"
  ∧ rearrange_bin_sbin "/usr/bin/" = "/usr/bin"
  ∧ rearrange_bin_sbin "/usr/./bin:/opt/bin" = "/usr/bin:/opt/bin"
  ∧ rearrange_bin_sbin "/bin::/opt" = "/bin:.:/opt"
  ∧ rearrange_bin_sbin "" = "."
  ∧ rearrange_path
      (flat_fs [(("/etc/env.d" : str),
                 [(("50-path.conf" : str), ("PATH=/usr//bin" : str) ++ [LF])])])
      [("/etc/env.d" : str)]
    = Some (Some (("/etc/env.d/90-rearrange-path.conf" : str),
                  ("PATH=/usr/bin" : str) ++ [LF]))
  ∧ rearrange_path
      (flat_fs [(("/etc/env.d" : str),
                 [(("50-path.conf" : str), ("PATH=/usr/bin/" : str) ++ [LF])])])
      [("/etc/env.d" : str)]
    = Some (Some (("/etc/env.d/90-rearrange-path.conf" : str),
                  ("PATH=/usr/bin" : str) ++ [LF])).
Proof.
  split_and!; [| | | | |by vm_compute..].
  - intros path Hno. unfold rearrange_bin_sbin.
    rewrite rearrange_loop_no_sbin by done. unfold path_items.
    by rewrite <- list_fmap_compose.
  - intros p. apply parse_path_wf.
  - intros p. apply Path_as_posix, parse_path_wf.
  - intros it Hit. apply (bool_decide_unpack _). revert it Hit.
    apply Forall_forall. by repeat constructor.
  - intros it Hit. apply (bool_decide_unpack _). revert it Hit.
    apply Forall_forall. by repeat constructor.
Qed.

Lemma C10_witness :
  rearrange_bin_sbin "/usr//bin"
  = join ":" ((λ p, as_posix (Path [p])) <$> split ":" ("/usr//bin" : str)).
Proof.
  apply (proj1 C10_segments_are_rewritten_without_swap).
  exact (proj1 (proj2 (proj2 (proj2
           C10_segments_are_rewritten_without_swap)))).
Defined.

End RunClaims.

(** * Further properties *)

(** ** The rearranger only reorders *)

Section RearrangeOrder.
Import Str Pathlib.

Lemma rearrange_step_Permutation items i : rearrange_step items i ≡ₚ items.
Proof.
  unfold rearrange_step. repeat case_match; try done.
  by apply swap_Permutation.
Qed.

Lemma rearrange_loop_Permutation n items : rearrange_loop n items ≡ₚ items.
Proof.
  induction n as [|n IH]; [done|].
  by rewrite rearrange_loop_S, rearrange_step_Permutation.
Qed.

Lemma rearrange_step_before items i k :
  k < i → rearrange_step items i !! k = items !! k.
Proof.
  intros Hk. unfold rearrange_step. repeat case_match; try done.
  by rewrite !list_lookup_insert_ne by lia.
Qed.

Lemma path_items_nonempty path : path_items path ≠ [].
Proof.
  unfold path_items. pose proof (split_nonempty ":" path).
  by destruct (split ":" path).
Qed.

(** The segments of the result are the items the loop ends with. *)
Lemma path_items_rearrange path :
  path_items (rearrange_bin_sbin path)
  = rearrange_loop (length (path_items path)) (path_items path).
Proof.
  unfold rearrange_bin_sbin. apply path_items_join.
  - intros Hnil. apply (path_items_nonempty path).
    apply length_zero_iff_nil. rewrite <- (rearrange_loop_length
      (length (path_items path)) (path_items path)). by rewrite Hnil.
  - apply rearrange_loop_wf, path_items_wf.
  - apply rearrange_loop_Forall; [apply path_items_wf|].
    apply path_items_no_colon.
Qed.

(** X1.  The parsed segments of the result are a permutation of the parsed
    segments of the path string: the rearrangement neither drops nor adds
    nor repeats a directory, and the result has as many segments as the
    input. *)
Theorem X1_rearranged_segments_are_a_permutation (path : str) :
  path_items (rearrange_bin_sbin path) ≡ₚ path_items path
  ∧ length (split ":" (rearrange_bin_sbin path)) = length (split ":" path).
Proof.
  assert (path_items (rearrange_bin_sbin path) ≡ₚ path_items path) as Hperm.
  { rewrite path_items_rearrange. apply rearrange_loop_Permutation. }
  split; [done|]. apply Permutation_length in Hperm.
  unfold path_items in Hperm. by rewrite !length_fmap in Hperm.
Qed.

(** X2.  The loop goes forward only: the segment at an index is settled by
    the iteration at this index, and no later iteration changes it. *)
Theorem X2_later_iterations_keep_earlier_segments
    (items : list PurePath) (n m k : nat) :
  k < n → n ≤ m →
  rearrange_loop m items !! k = rearrange_loop n items !! k.
Proof.
  intros Hk Hnm. induction Hnm as [|m Hnm IH]; [done|].
  rewrite rearrange_loop_S, rearrange_step_before by lia. done.
Qed.

Lemma X2_witness :
  rearrange_loop 3 (path_items "/usr/sbin:/sbin:/usr/bin:/bin") !! 0
  = rearrange_loop 1 (path_items "/usr/sbin:/sbin:/usr/bin:/bin") !! 0.
Proof.
  apply (X2_later_iterations_keep_earlier_segments
           (path_items "/usr/sbin:/sbin:/usr/bin:/bin") 1 3 0); lia.
Defined.

End RearrangeOrder.

(** ** Ordered paths *)

Section RearrangeOrdered.
Import Str Pathlib.

(** Joining what was split gives the text back. *)
Lemma join_split c (s : str) : join [c] (split c s) = s.
Proof.
  induction s as [|a s IH]; [done|]. simpl.
  destruct (Ascii.eqb_spec a c) as [->|Hne].
  - rewrite join_cons by apply split_nonempty. simpl. by rewrite IH.
  - destruct (split c s) as [|w ws] eqn:Hs;
      [by apply split_nonempty in Hs|].
    rewrite <- IH. by destruct ws.
Qed.

(** X3.  When no segment holds the component [sbin] twice, the result is a
    fixed point: rearranging it again returns it unchanged. *)
Theorem X3_rearranging_twice_with_single_sbin (path : str) :
  Forall single_sbin (path_items path) →
  rearrange_bin_sbin (rearrange_bin_sbin path) = rearrange_bin_sbin path.
Proof. apply rearrange_twice_single_sbin. Qed.

Lemma X3_witness :
  rearrange_bin_sbin (rearrange_bin_sbin "/usr/sbin:/sbin:/usr/bin:/bin")
  = rearrange_bin_sbin "/usr/sbin:/sbin:/usr/bin:/bin".
Proof.
  apply (X3_rearranging_twice_with_single_sbin
           "/usr/sbin:/sbin:/usr/bin:/bin").
  apply Forall_forall. intros it Hit. apply (bool_decide_unpack _).
  revert it Hit. apply Forall_forall. by repeat constructor.
Defined.

(** X4.  When no segment holds the component [sbin] twice, the result is
    in the order the docstring asks for: no segment that holds [sbin] has
    its sibling behind it. *)
Theorem X4_result_has_no_sibling_behind_sbin
    (path : str) (i : nat) (it : PurePath) :
  Forall single_sbin (path_items path) →
  path_items (rearrange_bin_sbin path) !! i = Some it →
  ("sbin" : str) ∈ parts it →
  sibling it ∉ drop (i + 1) (path_items (rearrange_bin_sbin path)).
Proof.
  intros Hsingle Hi Hin. rewrite path_items_rearrange in *.
  apply (rearrange_loop_settled (length (path_items path))
           (path_items path) (path_items_wf path) Hsingle i it);
    [|done..].
  apply lookup_lt_Some in Hi. by rewrite rearrange_loop_length in Hi.
Qed.

Lemma X4_witness :
  sibling (Path [("/usr/sbin" : str)])
  ∉ drop (2 + 1)
      (path_items (rearrange_bin_sbin "/usr/sbin:/sbin:/usr/bin:/bin")).
Proof.
  apply (X4_result_has_no_sibling_behind_sbin
           "/usr/sbin:/sbin:/usr/bin:/bin" 2 (Path [("/usr/sbin" : str)])).
  - apply Forall_forall. intros it Hit. apply (bool_decide_unpack _).
    revert it Hit. apply Forall_forall. by repeat constructor.
  - by vm_compute.
  - apply (bool_decide_unpack _). by vm_compute.
Defined.

(** X5.  A path in which no segment that holds [sbin] has its sibling
    behind it is only written back segment by segment, in the same order;
    when its segments are written as the parser writes them, it is
    returned as it is. *)
Theorem X5_ordered_path_keeps_its_order (path : str) :
  (∀ i it, path_items path !! i = Some it → ("sbin" : str) ∈ parts it →
           sibling it ∉ drop (i + 1) (path_items path)) →
  rearrange_bin_sbin path
  = join ":" ((λ p, as_posix (Path [p])) <$> split ":" path)
  ∧ (Forall (λ p, as_posix (Path [p]) = p) (split ":" path) →
     rearrange_bin_sbin path = path).
Proof.
  intros Hord.
  assert (rearrange_bin_sbin path
          = join ":" ((λ p, as_posix (Path [p])) <$> split ":" path)) as Heq.
  { unfold rearrange_bin_sbin. rewrite rearrange_loop_fixed.
    - unfold path_items. by rewrite <- list_fmap_compose.
    - apply path_items_wf.
    - intros i it _. apply Hord. }
  split; [done|]. intros Hnormal. rewrite Heq.
  rewrite (Forall_fmap_ext_1 _ id) by done. rewrite list_fmap_id.
  apply join_split.
Qed.

Lemma X5_witness :
  rearrange_bin_sbin "/usr/bin:/usr/sbin:/opt/sbin"
  = "/usr/bin:/usr/sbin:/opt/sbin".
Proof.
  apply (X5_ordered_path_keeps_its_order "/usr/bin:/usr/sbin:/opt/sbin").
  - intros i it Hi Hin. apply (bool_decide_unpack _).
    destruct i as [|[|[|i]]]; simpl in Hi; [by injection Hi as <-..|done].
  - by repeat constructor.
Defined.

(** X6.  Any directory that holds [sbin], directly followed by its
    sibling, changes places with it. *)
Theorem X6_sbin_before_its_sibling_is_swapped (p : PurePath) :
  wf_path p → without ":" p → ("sbin" : str) ∈ parts p →
  rearrange_bin_sbin (as_posix p ++ ":" ++ as_posix (sibling p))
  = as_posix (sibling p) ++ ":" ++ as_posix p.
Proof.
  intros Hwf Hnc Hin.
  assert (Forall wf_path [p; sibling p]) as Hwfs.
  { apply Forall_cons. split; [done|].
    apply Forall_singleton. by apply sibling_wf. }
  assert (without ":" (sibling p)) as Hncs.
  { destruct Hnc as [Hrt Hall]. split; [done|]. unfold sibling. cbn [tail].
    induction Hall as [|x l Hx Hl IH]; cbn [replace_first]; [done|].
    case_decide; constructor; [by apply (bool_decide_unpack _)|done..]. }
  unfold rearrange_bin_sbin.
  change (as_posix p ++ ":" ++ as_posix (sibling p))
    with (join ":" (as_posix <$> [p; sibling p])).
  rewrite path_items_join;
    [|done|done|apply Forall_cons; split; [done|by apply Forall_singleton]].
  change (length [p; sibling p]) with 2.
  rewrite !rearrange_loop_S. change (rearrange_loop 0 [p; sibling p])
    with [p; sibling p].
  assert (rearrange_step [p; sibling p] 0 = [sibling p; p]) as ->.
  { destruct (rearrange_step_spec [p; sibling p] 0 p Hwfs eq_refl Hin)
      as [(j & Hj & Hlook & _ & ->)|[Hnone _]].
    - destruct j as [|[|j]]; [lia|done|done].
    - by destruct (Hnone 1 ltac:(lia)). }
  assert (Forall wf_path [sibling p; p]) as Hwfs'.
  { apply Forall_cons. split; [by apply sibling_wf|].
    by apply Forall_singleton. }
  destruct (rearrange_step_spec [sibling p; p] 1 p Hwfs' eq_refl Hin)
    as [(j & Hj & Hlook & _)|[_ ->]]; [|done].
  by destruct j as [|[|j]]; [lia..|].
Qed.

Lemma X6_witness :
  rearrange_bin_sbin
    (as_posix (Path [("/opt/sbin/x" : str)]) ++ ":"
     ++ as_posix (sibling (Path [("/opt/sbin/x" : str)])))
  = as_posix (sibling (Path [("/opt/sbin/x" : str)])) ++ ":"
    ++ as_posix (Path [("/opt/sbin/x" : str)]).
Proof.
  apply X6_sbin_before_its_sibling_is_swapped.
  - apply parse_path_wf.
  - apply parse_path_without; [done|]. by apply (bool_decide_unpack _).
  - apply (bool_decide_unpack _). by vm_compute.
Defined.

(** X7.  Two segments parse to the same path exactly when they are written
    back as the same text; so the search for the sibling compares the
    normal texts of the segments. *)
Theorem X7_same_path_iff_same_text (s t : str) :
  Path [s] = Path [t] ↔ as_posix (Path [s]) = as_posix (Path [t]).
Proof.
  split; [by intros ->|]. intros Heq.
  rewrite <- (Path_as_posix (Path [s])) by apply parse_path_wf.
  rewrite <- (Path_as_posix (Path [t])) by apply parse_path_wf.
  by rewrite Heq.
Qed.

(** X8.  No segment of the result is empty, and every segment of the
    result is in the form the parser writes: parsing it and writing it
    back gives the same text. *)
Theorem X8_result_segments_are_normal (path : str) :
  Forall (λ seg, seg ≠ [] ∧ as_posix (Path [seg]) = seg)
    (split ":" (rearrange_bin_sbin path)).
Proof.
  unfold rearrange_bin_sbin.
  set (final := rearrange_loop (length (path_items path)) (path_items path)).
  assert (Forall wf_path final) as Hwf
    by apply rearrange_loop_wf, path_items_wf.
  rewrite split_join.
  - apply Forall_fmap. eapply Forall_impl; [exact Hwf|].
    intros p Hp. unfold compose. split.
    + unfold as_posix. by destruct (root p ++ join sep (tail p)).
    + by rewrite (Path_as_posix p).
  - intros Hnil. apply fmap_nil_inv in Hnil.
    apply (path_items_nonempty path), length_zero_iff_nil.
    unfold final in Hnil.
    by rewrite <- (rearrange_loop_length (length (path_items path))), Hnil.
  - apply Forall_fmap.
    eapply Forall_impl;
      [apply (rearrange_loop_Forall (without ":"));
         [apply path_items_wf|apply path_items_no_colon]|].
    intros p Hp. by apply as_posix_without.
Qed.

End RearrangeOrdered.

(** ** What a file does to the environment *)

Section MergerEffects.
Import Str Re.

Lemma handle_line_dom env (line : str) :
  dom env ⊆ dom (handle_line env line).
Proof.
  unfold handle_line. destruct (partition "=" line) as [[var op] val].
  destruct op; [done|]. rewrite dom_insert. set_solver.
Qed.

Lemma read_lines_dom st (ls : list str) :
  dom st.1 ⊆ dom (fold_left read_line ls st).1.
Proof.
  revert st. induction ls as [|l ls IH]; intros [env full]; [done|].
  cbn [fold_left]. etrans; [|apply IH]. unfold read_line. simpl.
  repeat case_match; simpl; try done. apply handle_line_dom.
Qed.

Lemma update_env_from_lines_dom env (ls : list str) :
  dom env ⊆ dom (update_env_from_lines env ls).
Proof.
  unfold update_env_from_lines.
  pose proof (read_lines_dom (env, []) ls) as Hdom.
  destruct (fold_left read_line ls (env, [])) as [env' full]. simpl in *.
  etrans; [exact Hdom|apply handle_line_dom].
Qed.

(** X9.  No variable is ever removed: the names an environment holds
    before the lines of a file are read are still there afterwards, and so
    through any number of files. *)
Theorem X9_variables_are_never_removed
    (fs : filesystem) (paths : list str) (env env' : environ) :
  update_env_from_files fs env paths = Some env' → dom env ⊆ dom env'.
Proof.
  revert env. induction paths as [|path paths IH]; intros env; simpl.
  - by intros [= <-].
  - unfold update_env_from_file.
    destruct (fs_open fs path) as [text|]; [|done]. simpl. intros Hrest.
    etrans; [|by apply IH]. apply update_env_from_lines_dom.
Qed.

Lemma X9_witness :
  dom ({[("HOME" : str) := ("/root" : str)]} : environ)
  ⊆ dom (<[("PATH" : str) := ("/bin" : str)]>
           ({[("HOME" : str) := ("/root" : str)]} : environ)).
Proof.
  apply (X9_variables_are_never_removed
           (flat_fs [(("/d" : str),
                      [(("a.conf" : str), ("PATH=/bin" : str) ++ [LF])])])
           [("/d/a.conf" : str)]).
  by vm_compute.
Defined.

(** X10.  Lines without an equals sign are no assignments: a file in
    which every line is a comment or holds no equals sign leaves the
    environment as it is, however its lines are continued. *)
Theorem X10_lines_without_equals_change_nothing
    (env : environ) (ls : list str) :
  Forall (λ l, startswith l "#" = true ∨ "="%char ∉ l) ls →
  update_env_from_lines env ls = env.
Proof.
  intros Hls. unfold update_env_from_lines.
  assert (∀ full : str, "="%char ∉ full →
            (fold_left read_line ls (env, full)).1 = env
            ∧ ("="%char ∉ (fold_left read_line ls (env, full)).2)) as Hinv.
  { induction Hls as [|l ls Hl _ IH]; intros full Hfull; [done|].
    cbn [fold_left].
    destruct (startswith l "#") eqn:Hc;
      [rewrite read_line_comment by done; by apply IH|].
    destruct Hl as [Hl|Hl]; [congruence|].
    assert ("="%char ∉ rstrip l) as Hr by by apply rstrip_without.
    destruct (endswith (rstrip l) "\") eqn:Hend.
    - rewrite read_line_continued by done.
      apply IH. rewrite elem_of_app. intros [?|Hin]; [done|].
      apply Hr. unfold body, chop in Hin. by eapply subseteq_take.
    - rewrite read_line_complete by done. rewrite handle_line_ignore.
      + apply IH. by intros ?%elem_of_nil.
      + apply rstrip_without. rewrite elem_of_app. tauto. }
  destruct (Hinv [] ltac:(by intros ?%elem_of_nil)) as [Henv Hfull].
  destruct (fold_left read_line ls (env, [])) as [env' full].
  simpl in *. subst env'. apply handle_line_ignore. by apply rstrip_without.
Qed.

Lemma X10_witness :
  update_env_from_lines ∅
    [("# PATH=/x" : str) ++ [LF]; ("export PATH \" : str) ++ [LF];
     ("  /usr/bin" : str) ++ [LF]]
  = ∅.
Proof.
  apply X10_lines_without_equals_change_nothing.
  apply Forall_cons; split; [by left|].
  apply Forall_cons; split; [right; by apply (bool_decide_unpack _)|].
  apply Forall_singleton. right. by apply (bool_decide_unpack _).
Defined.

(** X11.  A value without a dollar is stored as it is written. *)
Theorem X11_value_without_dollar_is_stored_verbatim
    (env : environ) (var val : str) :
  "="%char ∉ var → "$"%char ∉ val →
  handle_line env (var ++ "="%char :: val) = <[var := val]> env.
Proof.
  intros Hvar Hval. rewrite handle_line_assign by done. f_equal.
  rewrite <- (app_nil_r val) at 1.
  rewrite substitute_at_plain by done.
  by rewrite substitute_at_nil, app_nil_r.
Qed.

Lemma X11_witness :
  handle_line ∅ (("EDITOR" : str) ++ "="%char :: ("vi -u {a=b}" : str))
  = <[("EDITOR" : str) := ("vi -u {a=b}" : str)]> ∅.
Proof.
  apply X11_value_without_dollar_is_stored_verbatim;
    by apply (bool_decide_unpack _).
Defined.

(** X12.  With nothing between the braces, the variable looked up is the
    one whose name is the two braces, not the one with the empty name:
    [group(2)] is empty, so [group(1)], which holds the braces, is used. *)
Theorem X12_empty_braces_look_up_the_braces
    (env : environ) (var rest : str) :
  "="%char ∉ var →
  handle_line env (var ++ "="%char :: "$"%char :: "{"%char :: "}"%char :: rest)
  = <[var := default [] (env !! ("{}" : str))
             ++ substitute_at env (Some "}"%char) rest]> env.
Proof.
  intros Hvar. rewrite handle_line_assign by done.
  by rewrite substitute_at_empty_braces.
Qed.

Lemma X12_witness :
  handle_line (<[("{}" : str) := ("braces" : str)]>
                 {[("" : str) := ("empty" : str)]})
    (("B" : str) ++ "="%char :: "$"%char :: "{"%char :: "}"%char :: [])
  !! ("B" : str) = Some ("braces" : str).
Proof.
  rewrite (X12_empty_braces_look_up_the_braces _ "B" []).
  - by vm_compute.
  - by apply (bool_decide_unpack _).
Defined.

Lemma repeat_class_none {A} p min prev (s : str)
    (k : option ascii → str → option A) :
  (∀ prev' s', s' `suffix_of` s → k prev' s' = None) →
  repeat_class p min prev s k = None.
Proof.
  revert min prev. induction s as [|c s IH]; intros min prev Hk.
  - simpl. destruct min; [by apply Hk|done].
  - cbn [repeat_class]. rewrite IH.
    + destruct (p c), min; try done; by apply Hk.
    + intros prev' s' Hs'. apply Hk. by apply suffix_cons_r.
Qed.

(** Behind a dollar that starts no name nothing matches. *)
Lemma match_at_no_name prev (rest : str) :
  (∀ c, head rest = Some c → isword c = false ∧ c ≠ "{"%char)
  ∨ (∃ t, rest = "{"%char :: t ∧ "}"%char ∉ t) →
  match_at pattern prev ("$"%char :: rest) = None.
Proof.
  intros Hrest. unfold match_at, pattern. cbn [exec].
  case_bool_decide; [done|]. cbn [Ascii.eqb Bool.eqb].
  destruct Hrest as [Hhead|(t & -> & Ht)].
  - destruct rest as [|c rest]; [done|].
    destruct (Hhead c eq_refl) as [Hw Hb].
    rewrite repeat_class_no_start by (done || lia).
    by destruct (Ascii.eqb_spec c "{").
  - rewrite repeat_class_no_start by (done || lia).
    cbn [Ascii.eqb Bool.eqb]. apply repeat_class_none.
    intros prev' s' Hs'. destruct s' as [|x s']; [done|].
    destruct (Ascii.eqb_spec x "}") as [->|]; [|done].
    exfalso. apply Ht. destruct Hs' as [l ->].
    apply elem_of_app. right. by left.
Qed.

(** X13.  A dollar that starts no name is copied: one at the end of the
    value, one before a character that is neither a word character nor an
    opening brace, and one before a brace that is never closed. *)
Theorem X13_dollar_without_name_is_copied
    (env : environ) (prev : option ascii) (rest : str) :
  (∀ c, head rest = Some c → isword c = false ∧ c ≠ "{"%char)
  ∨ (∃ t, rest = "{"%char :: t ∧ "}"%char ∉ t) →
  substitute_at env prev ("$"%char :: rest)
  = "$"%char :: substitute_at env (Some "$"%char) rest.
Proof.
  intros Hrest. unfold substitute_at. apply sub_at_no_match.
  by apply match_at_no_name.
Qed.

Lemma X13_witness :
  substitute_at ∅ None ("$"%char :: ("{HOME/bin" : str))
  = "$"%char :: substitute_at ∅ (Some "$"%char) "{HOME/bin".
Proof.
  apply X13_dollar_without_name_is_copied. right.
  exists ("HOME/bin" : str). split; [done|]. by apply (bool_decide_unpack _).
Defined.

End MergerEffects.

(** ** The run as a whole *)

Section RunFacts.
Import Str Pathlib.



Lemma compare_cons x y (a b : str) :
  compare (x :: a) (y :: b)
  = match Nat.compare (nat_of_ascii x) (nat_of_ascii y) with
    | Eq => compare a b
    | c => c
    end.
Proof. done. Qed.

Lemma compare_eq (a b : str) : compare a b = Eq → a = b.
Proof.
  revert b. induction a as [|x a IH]; intros [|y b]; try done.
  rewrite compare_cons.
  destruct (nat_of_ascii x ?= nat_of_ascii y) eqn:Hc; try done.
  intros Hab. apply Nat.compare_eq in Hc. f_equal; [|by apply IH].
  by rewrite <- (ascii_nat_embedding x), Hc, ascii_nat_embedding.
Qed.

Lemma compare_Lt_trans (a b c : str) :
  compare a b = Lt → compare b c = Lt → compare a c = Lt.
Proof.
  revert b c. induction a as [|x a IH]; intros [|y b] [|z c]; try done.
  rewrite !compare_cons.
  destruct (nat_of_ascii x ?= nat_of_ascii y) eqn:Hxy;
    destruct (nat_of_ascii y ?= nat_of_ascii z) eqn:Hyz; try done.
  - apply Nat.compare_eq in Hxy. rewrite Hxy, Hyz. apply IH.
  - apply Nat.compare_eq in Hxy. by rewrite Hxy, Hyz.
  - apply Nat.compare_eq in Hyz. by rewrite <- Hyz, Hxy.
  - intros _ _. apply Nat.compare_lt_iff in Hxy, Hyz.
    by rewrite (proj2 (Nat.compare_lt_iff _ _)) by lia.
Qed.

(** X15.  The files are read in the strict order of their names, code
    point by code point, whatever the order of the directories and of the
    names a glob gives. *)
Theorem X15_files_are_read_in_name_order
    (fs : filesystem) (dirs : list str) :
  StronglySorted (λ a b, compare a b = Lt)
    (conf_name <$> conf_paths fs dirs).
Proof.
  assert (Transitive (λ a b : str, compare a b = Lt)) as Htrans.
  { intros a b c. apply compare_Lt_trans. }
  apply Sorted_StronglySorted; [done|].
  rewrite conf_paths_names.
  pose proof (Sorted_merge_sort item_le (Total0 := item_le_total)
                (map_to_list (conf_files fs dirs))) as Hsorted.
  assert (NoDup (merge_sort item_le (map_to_list (conf_files fs dirs))).*1)
    as Hdup.
  { rewrite merge_sort_Permutation. apply NoDup_fst_map_to_list. }
  induction Hsorted as [|[n p] l Hl IH Hhd]; [constructor|].
  simpl in Hdup. apply NoDup_cons in Hdup as [Hn Hdup].
  constructor; [by apply IH|].
  destruct Hhd as [|[n' p'] l' Hle]; constructor. simpl.
  unfold item_le in Hle. simpl in Hle.
  destruct (compare n n') eqn:Hc; [|done..].
  apply compare_eq in Hc as ->. exfalso. apply Hn. simpl. by left.
Qed.

End RunFacts.
